(** * SUNOCAT player: playlist encoding and playback state machine

    A shallow embedding of the player core of [app.js] (classes
    [PlaylistStorage] and [SUNOPlaylist]) together with the properties the
    specification states about it.

    Conventions of the embedding.
    - JavaScript strings are [string]s (sequences of 8-bit characters); every
      pattern of the source only inspects ASCII characters.
    - [null] / [undefined] results are [None].
    - Track objects live in an object store ([heap]) and arrays of tracks are
      lists of references into it, so that two arrays holding the same object
      observe each other's mutations, as in the source.
    - Functions of the host environment that [app.js] calls but does not
      define ([LZString], [JSON.stringify], [Array.prototype.sort] with the
      random comparator, the DOM entity decoder) are operations of the
      classes [LZString] and [Host]; what is assumed about them is stated as
      a separate law class next to the theorems that need it. *)

From Stdlib Require Import ZArith List Ascii String Lia Permutation.
From stdpp Require Import base tactics option list strings gmap pretty.

Import ListNotations.
Local Open Scope string_scope.
Local Open Scope Z_scope.

(* ===================================================================== *)
(** * Part I: definitions                                                 *)
(* ===================================================================== *)

(** ** JavaScript string primitives used by the source *)

Module JS.

Definition code (c : ascii) : N := N_of_ascii c.

Definition in_range (lo hi c : ascii) : bool :=
  ((code lo <=? code c) && (code c <=? code hi))%N.

Definition is_digit (c : ascii) : bool := in_range "0" "9" c.
Definition is_lower (c : ascii) : bool := in_range "a" "z" c.
Definition is_upper (c : ascii) : bool := in_range "A" "Z" c.

(** Case folding of the [i] flag, restricted to ASCII as the patterns
    are. *)
Definition to_lower (c : ascii) : ascii :=
  if is_upper c then ascii_of_N (code c + 32) else c.

Definition ascii_eqb (a b : ascii) : bool := Ascii.eqb a b.

(** [Array.prototype.join(sep)] on an array of strings. *)
Fixpoint join (sep : string) (l : list string) : string :=
  match l with
  | [] => ""
  | [x] => x
  | x :: rest => x +:+ sep +:+ join sep rest
  end.

(** [String.prototype.split(c)] for a one-character separator: always at
    least one piece, [ "".split(c) ] is [ [""] ]. *)
Fixpoint split (c : ascii) (s : string) : list string :=
  match s with
  | EmptyString => [""]
  | String a s' =>
      if ascii_eqb a c then "" :: split c s'
      else match split c s' with
           | [] => [String a ""]
           | piece :: pieces => String a piece :: pieces
           end
  end.

(** White space of [String.prototype.trim] within ASCII: TAB, LF, VT, FF,
    CR and SPACE. *)
Definition is_space (c : ascii) : bool :=
  in_range "009" "013" c || ascii_eqb c " ".

Fixpoint trimStart (s : string) : string :=
  match s with
  | EmptyString => ""
  | String a s' => if is_space a then trimStart s' else s
  end.

Fixpoint trimEnd (s : string) : string :=
  match s with
  | EmptyString => ""
  | String a s' =>
      match trimEnd s' with
      | EmptyString => if is_space a then "" else String a ""
      | t => String a t
      end
  end.

Definition trim (s : string) : string := trimEnd (trimStart s).

(** [s.startsWith(p)]: the rest of [s] after [p], when [p] is a prefix. *)
Fixpoint strip_prefix (p s : string) : option string :=
  match p, s with
  | EmptyString, _ => Some s
  | String a p', String b s' =>
      if ascii_eqb a b then strip_prefix p' s' else None
  | String _ _, EmptyString => None
  end.

Definition startsWith (p s : string) : bool :=
  match strip_prefix p s with Some _ => true | None => false end.

(** [s.includes(p)]. *)
Fixpoint includes (p s : string) : bool :=
  startsWith p s ||
  match s with
  | EmptyString => false
  | String _ s' => includes p s'
  end.

(** Truthiness of a string value: the empty string is falsy. *)
Definition truthy (s : string) : bool :=
  match s with EmptyString => false | String _ _ => true end.

(** [a || b] on possibly-null strings. *)
Definition or_else (a b : option string) : option string :=
  match a with
  | Some (String c s) => Some (String c s)
  | _ => b
  end.

End JS.

(** ** Regular expressions of the source

    All patterns of [app.js] that the core uses are a literal followed by a
    run of one character class.  A pattern of fixed length is a list of
    character predicates; [search] is the leftmost match that
    [String.prototype.match] returns for a pattern without the [g] flag. *)

Module Regex.

Definition template := list (ascii -> bool).

Fixpoint match_here (t : template) (s : string) : option string :=
  match t with
  | [] => Some ""
  | p :: t' =>
      match s with
      | EmptyString => None
      | String c s' =>
          if p c then
            match match_here t' s' with
            | Some m => Some (String c m)
            | None => None
            end
          else None
      end
  end.

Fixpoint search (t : template) (s : string) : option string :=
  match match_here t s with
  | Some m => Some m
  | None =>
      match s with
      | EmptyString => None
      | String _ s' => search t s'
      end
  end.

(** A literal character under the [i] flag. *)
Definition lit_i (c : ascii) : ascii -> bool :=
  fun x => JS.ascii_eqb (JS.to_lower x) (JS.to_lower c).

Definition literal_i (s : string) : template :=
  map lit_i (list_ascii_of_string s).

(** [[a-f0-9]] under [i]. *)
Definition hex_i (c : ascii) : bool :=
  JS.is_digit c || JS.in_range "a" "f" (JS.to_lower c).

(** [[a-f0-9-]] under [i]. *)
Definition hex_or_hyphen_i (c : ascii) : bool :=
  hex_i c || JS.ascii_eqb c "-".

(** [[a-zA-Z0-9]]. *)
Definition alnum (c : ascii) : bool :=
  JS.is_lower c || JS.is_upper c || JS.is_digit c.

Fixpoint drop_chars (n : nat) (s : string) : string :=
  match n, s with
  | O, _ => s
  | S n', String _ s' => drop_chars n' s'
  | S _, EmptyString => ""
  end.

Fixpoint take_while (p : ascii -> bool) (s : string) : string :=
  match s with
  | EmptyString => ""
  | String c s' => if p c then String c (take_while p s') else ""
  end.

End Regex.

(** ** Identifier extractor ([SUNOPlaylist.extractUUID]) *)

Module Extractor.
Import Regex.

(** [/\/song\/([a-f0-9-]{36})/i] *)
Definition song_prefix : string := "/song/".
Definition songPattern : template :=
  (literal_i song_prefix ++ repeat hex_or_hyphen_i 36)%list.

(** [/([a-f0-9]{8}-[a-f0-9]{4}-[a-f0-9]{4}-[a-f0-9]{4}-[a-f0-9]{12})/i] *)
Definition uuidPattern : template :=
  (repeat hex_i 8 ++ [lit_i "-"] ++ repeat hex_i 4 ++ [lit_i "-"] ++
   repeat hex_i 4 ++ [lit_i "-"] ++ repeat hex_i 4 ++ [lit_i "-"] ++
   repeat hex_i 12)%list.

(** [url.match(songPattern)], reduced to its capture group 1. *)
Definition songMatch (url : string) : option string :=
  match search songPattern url with
  | Some m => Some (drop_chars (String.length song_prefix) m)
  | None => None
  end.

(** [url.match(uuidPattern)], capture group 1 (the whole match). *)
Definition uuidMatch (url : string) : option string :=
  search uuidPattern url.

Definition extractUUID (url : string) : option string :=
  match songMatch url with
  | Some u => Some u
  | None =>
      match uuidMatch url with
      | Some u => Some u
      | None => None
      end
  end.

(** [lines[i].match(/\/s\/([a-zA-Z0-9]+)/)], capture group 1: the first
    place where [/s/] is followed by at least one alphanumeric character,
    and the longest alphanumeric run there. *)
Definition short_here (s : string) : option string :=
  match JS.strip_prefix "/s/" s with
  | Some r =>
      match take_while alnum r with
      | EmptyString => None
      | run => Some run
      end
  | None => None
  end.

Fixpoint shortMatch (s : string) : option string :=
  match short_here s with
  | Some m => Some m
  | None =>
      match s with
      | EmptyString => None
      | String _ s' => shortMatch s'
      end
  end.

(** The shape the glossary calls canonical: 8-4-4-4-12 hexadecimal
    digits. *)
Definition all_chars (p : ascii -> bool) (s : string) : Prop :=
  Forall (fun c => p c = true) (list_ascii_of_string s).

Definition hex_block (n : nat) (s : string) : Prop :=
  String.length s = n /\ all_chars hex_i s.

Definition canonical_shape (u : string) : Prop :=
  exists a b c d e,
    u = a +:+ "-" +:+ b +:+ "-" +:+ c +:+ "-" +:+ d +:+ "-" +:+ e /\
    hex_block 8 a /\ hex_block 4 b /\ hex_block 4 c /\ hex_block 4 d /\
    hex_block 12 e.

(** What the first pattern accepts after [/song/]. *)
Definition song_token (u : string) : Prop :=
  String.length u = 36%nat /\ all_chars hex_or_hyphen_i u.

End Extractor.

(** ** Host environment

    Functions that [app.js] calls and that belong to the browser or to the
    bundled LZString library, not to this repository. *)

(** [LZString.compressToEncodedURIComponent] and
    [LZString.decompressFromEncodedURIComponent]; the latter returns [null]
    ([None]) when it cannot decode. *)
Class LZString := {
  compressToEncodedURIComponent : string -> string;
  decompressFromEncodedURIComponent : string -> option string
}.

Class Host := {
  (** [JSON.stringify] on an array of strings. *)
  JSON_stringify : list string -> string;
  (** The entity decoding a [textarea] element performs between its
      [innerHTML] and its [value]. *)
  textarea_decode : string -> string;
  (** [Array.prototype.sort(() => Math.random() - 0.5)]: the order the
      engine's sort leaves the array in, as a function of the random bits
      drawn by [Math.random] during the call.  The comparator ignores its
      arguments, so the result cannot depend on the elements. *)
  sort_random : forall A : Type, list bool -> list A -> list A
}.
Arguments sort_random {_ _} _ _.

(** What the player relies on from LZString: decompression inverts
    compression, and the empty token does not decompress
    ([decompressFromEncodedURIComponent("")] is [null]). *)
Class LZStringLaws (lz : LZString) : Prop := {
  decompress_compress (s : string) :
    decompressFromEncodedURIComponent (compressToEncodedURIComponent s)
    = Some s;
  decompress_empty : decompressFromEncodedURIComponent "" = None
}.

(** What the player relies on from the engine's sort: whatever the
    comparator answers, the array is left holding the same elements. *)
Class HostLaws (host : Host) : Prop := {
  sort_random_permutation (A : Type) (bits : list bool) (l : list A) :
    Permutation (sort_random bits l) l
}.

(** ** Data model *)

(** A track object as [loadPlaylist] creates it; [thumbnail] is absent until
    metadata arrives. *)
Record Track := mkTrack {
  uuid : string;
  mp3Url : string;
  title : string;
  artist : string;
  thumbnail : option string;
  isLiked : bool;
  error : option string
}.

(** ** Compact encoder and decoder ([updateURL], [loadFromURL]) *)

Module Codec.
Section WithLZString.
Context `{LZString}.

Definition songUrl (uuid : string) : string :=
  "https://suno.com/song/" +:+ uuid.

(** [this.playlist.map(t => t.uuid).join(',')] then
    [LZString.compressToEncodedURIComponent], as in [updateURL] and in the
    fallback of [getShareUrl]. *)
Definition encode (uuids : list string) : string :=
  compressToEncodedURIComponent (JS.join "," uuids).

(** [updateURL]: the new address, [None] when the address bar is left
    alone. *)
Definition updateURL (pathname : string) (uuids : list string)
  : option string :=
  match uuids with
  | [] => None
  | _ => Some (pathname +:+ "?p=" +:+ encode uuids)
  end.

(** The compressed branch of [loadFromURL]; [None] is the [TypeError] of
    [null.split], caught by the caller. *)
Definition decodeCompressed (token : string) : option (list string) :=
  match decompressFromEncodedURIComponent token with
  | Some decompressed => Some (JS.split "," decompressed)
  | None => None
  end.

(** The legacy branch of [loadFromURL]. *)
Definition decodeLegacy (value : string) : list string :=
  JS.split "," value.

Inductive UrlAction :=
  | FromShortUrl (shortId : string)   (* [loadFromShortUrl(shortId)] *)
  | RestoreLinks (uuids : list string) (* links written to the input, load scheduled *)
  | DecodeFailed                      (* exception caught and logged *)
  | NothingToLoad.

(** The text [loadFromURL] writes into the links input. *)
Definition restoredInput (uuids : list string) : string :=
  JS.join (String "010" "") (map songUrl uuids).

(** [path.substring(3)] when [path.startsWith('/p/')] and the rest is not
    empty. *)
Definition shortIdOf (pathname : string) : option string :=
  match JS.strip_prefix "/p/" pathname with
  | Some (String c s) => Some (String c s)
  | _ => None
  end.

(** [loadFromURL], on [window.location.pathname] and the values of the
    query parameters [p] and [tracks] ([None] when absent). *)
Definition loadFromURL (pathname : string) (p tracks : option string)
  : UrlAction :=
  let viaQuery :=
    match JS.or_else p tracks with
    | Some (String _ _ as compressed) =>
        let decoded :=
          match p with
          | Some (String _ _) => decodeCompressed compressed
          | _ => Some (decodeLegacy compressed)
          end in
        match decoded with
        | Some uuids =>
            if (0 <? length uuids)%nat then RestoreLinks uuids
            else NothingToLoad
        | None => DecodeFailed
        end
    | _ => NothingToLoad
    end in
  match shortIdOf pathname with
  | Some shortId => FromShortUrl shortId
  | None => viaQuery
  end.

End WithLZString.

(** An identifier that does not contain the separator. *)
Definition comma_free (s : string) : Prop :=
  Extractor.all_chars (fun c => negb (JS.ascii_eqb c ",")) s.

End Codec.

(** ** Persistence adapter ([PlaylistStorage]) *)

Module Storage.










Section WithHost.
Context `{Host}.



End WithHost.
End Storage.

(** ** Playback state machine ([SUNOPlaylist]) *)

Module Player.

Inductive RepeatMode := RepeatNone | RepeatAll | RepeatOne.
Inductive LoadingState := StLoading | StLoaded | StError.

Inductive Toast :=
| ToastLoading                  (* [i18n.t('toastLoading')] *)
| ToastNoValidLinks             (* the "no valid links" message, type [error] *)
| ToastReordered
| ToastRepeat (mode : RepeatMode).

(** A reference to a track object: its position in the object store. *)
Abbreviation loc := nat (only parsing).

(** What [fetchSongMetadata] resolves to. *)
Record Metadata := mkMetadata {
  m_title : option string;
  m_artist : option string;
  m_thumbnail : option string;
  m_error : option string
}.

(** One answer of [/api/metadata]: a failed request or the JSON body. *)
Inductive Response :=
| Failure (message : string)
| Json (title artist thumbnail : option string).

Record Player := mkPlayer {
  heap : list Track;  (* the track objects ever allocated, by reference *)
  playlist : list loc;  (* [this.playlist]: references into [heap] *)
  currentIndex : Z;
  isPlaying : bool;
  shuffleMode : bool;
  repeatMode : RepeatMode;
  originalPlaylist : list loc;  (* [this.originalPlaylist] *)
  loadingStates : gmap string LoadingState;  (* [this.loadingStates], a [Map] keyed by uuid *)
  linksInput : string;  (* [elements.linksInput.value] *)
  audioSrc : option string;  (* [elements.audioPlayer.src] *)
  playRequests : nat;  (* promises of [audioPlayer.play()] not yet settled *)
  toast : option Toast;  (* the message shown last *)
  likedTracks : list string;  (* the liked uuids in local storage *)
  extractions : list (string * list string);  (* [loadPlaylist] calls suspended at [await resolveShortLink(id)], with the lines still to process *)
  lookups : list loc  (* closures suspended at [await fetchSongMetadata(track.uuid)], by track object *)
}.

(** Field updates. *)

Definition with_heap (v : list Track) (st : Player) : Player :=
  {| heap := v; playlist := playlist st; currentIndex := currentIndex st;
     isPlaying := isPlaying st; shuffleMode := shuffleMode st;
     repeatMode := repeatMode st; originalPlaylist := originalPlaylist st;
     loadingStates := loadingStates st; linksInput := linksInput st;
     audioSrc := audioSrc st; playRequests := playRequests st;
     toast := toast st; likedTracks := likedTracks st;
     extractions := extractions st; lookups := lookups st |}.

Definition with_playlist (v : list loc) (st : Player) : Player :=
  {| heap := heap st; playlist := v; currentIndex := currentIndex st;
     isPlaying := isPlaying st; shuffleMode := shuffleMode st;
     repeatMode := repeatMode st; originalPlaylist := originalPlaylist st;
     loadingStates := loadingStates st; linksInput := linksInput st;
     audioSrc := audioSrc st; playRequests := playRequests st;
     toast := toast st; likedTracks := likedTracks st;
     extractions := extractions st; lookups := lookups st |}.

Definition with_currentIndex (v : Z) (st : Player) : Player :=
  {| heap := heap st; playlist := playlist st; currentIndex := v;
     isPlaying := isPlaying st; shuffleMode := shuffleMode st;
     repeatMode := repeatMode st; originalPlaylist := originalPlaylist st;
     loadingStates := loadingStates st; linksInput := linksInput st;
     audioSrc := audioSrc st; playRequests := playRequests st;
     toast := toast st; likedTracks := likedTracks st;
     extractions := extractions st; lookups := lookups st |}.

Definition with_isPlaying (v : bool) (st : Player) : Player :=
  {| heap := heap st; playlist := playlist st;
     currentIndex := currentIndex st; isPlaying := v;
     shuffleMode := shuffleMode st; repeatMode := repeatMode st;
     originalPlaylist := originalPlaylist st;
     loadingStates := loadingStates st; linksInput := linksInput st;
     audioSrc := audioSrc st; playRequests := playRequests st;
     toast := toast st; likedTracks := likedTracks st;
     extractions := extractions st; lookups := lookups st |}.

Definition with_shuffleMode (v : bool) (st : Player) : Player :=
  {| heap := heap st; playlist := playlist st;
     currentIndex := currentIndex st; isPlaying := isPlaying st;
     shuffleMode := v; repeatMode := repeatMode st;
     originalPlaylist := originalPlaylist st;
     loadingStates := loadingStates st; linksInput := linksInput st;
     audioSrc := audioSrc st; playRequests := playRequests st;
     toast := toast st; likedTracks := likedTracks st;
     extractions := extractions st; lookups := lookups st |}.

Definition with_repeatMode (v : RepeatMode) (st : Player) : Player :=
  {| heap := heap st; playlist := playlist st;
     currentIndex := currentIndex st; isPlaying := isPlaying st;
     shuffleMode := shuffleMode st; repeatMode := v;
     originalPlaylist := originalPlaylist st;
     loadingStates := loadingStates st; linksInput := linksInput st;
     audioSrc := audioSrc st; playRequests := playRequests st;
     toast := toast st; likedTracks := likedTracks st;
     extractions := extractions st; lookups := lookups st |}.

Definition with_originalPlaylist (v : list loc) (st : Player) : Player :=
  {| heap := heap st; playlist := playlist st;
     currentIndex := currentIndex st; isPlaying := isPlaying st;
     shuffleMode := shuffleMode st; repeatMode := repeatMode st;
     originalPlaylist := v; loadingStates := loadingStates st;
     linksInput := linksInput st; audioSrc := audioSrc st;
     playRequests := playRequests st; toast := toast st;
     likedTracks := likedTracks st; extractions := extractions st;
     lookups := lookups st |}.

Definition with_loadingStates (v : gmap string LoadingState) (st : Player) : Player :=
  {| heap := heap st; playlist := playlist st;
     currentIndex := currentIndex st; isPlaying := isPlaying st;
     shuffleMode := shuffleMode st; repeatMode := repeatMode st;
     originalPlaylist := originalPlaylist st; loadingStates := v;
     linksInput := linksInput st; audioSrc := audioSrc st;
     playRequests := playRequests st; toast := toast st;
     likedTracks := likedTracks st; extractions := extractions st;
     lookups := lookups st |}.

Definition with_linksInput (v : string) (st : Player) : Player :=
  {| heap := heap st; playlist := playlist st;
     currentIndex := currentIndex st; isPlaying := isPlaying st;
     shuffleMode := shuffleMode st; repeatMode := repeatMode st;
     originalPlaylist := originalPlaylist st;
     loadingStates := loadingStates st; linksInput := v;
     audioSrc := audioSrc st; playRequests := playRequests st;
     toast := toast st; likedTracks := likedTracks st;
     extractions := extractions st; lookups := lookups st |}.

Definition with_audioSrc (v : option string) (st : Player) : Player :=
  {| heap := heap st; playlist := playlist st;
     currentIndex := currentIndex st; isPlaying := isPlaying st;
     shuffleMode := shuffleMode st; repeatMode := repeatMode st;
     originalPlaylist := originalPlaylist st;
     loadingStates := loadingStates st; linksInput := linksInput st;
     audioSrc := v; playRequests := playRequests st; toast := toast st;
     likedTracks := likedTracks st; extractions := extractions st;
     lookups := lookups st |}.

Definition with_playRequests (v : nat) (st : Player) : Player :=
  {| heap := heap st; playlist := playlist st;
     currentIndex := currentIndex st; isPlaying := isPlaying st;
     shuffleMode := shuffleMode st; repeatMode := repeatMode st;
     originalPlaylist := originalPlaylist st;
     loadingStates := loadingStates st; linksInput := linksInput st;
     audioSrc := audioSrc st; playRequests := v; toast := toast st;
     likedTracks := likedTracks st; extractions := extractions st;
     lookups := lookups st |}.

Definition with_toast (v : option Toast) (st : Player) : Player :=
  {| heap := heap st; playlist := playlist st;
     currentIndex := currentIndex st; isPlaying := isPlaying st;
     shuffleMode := shuffleMode st; repeatMode := repeatMode st;
     originalPlaylist := originalPlaylist st;
     loadingStates := loadingStates st; linksInput := linksInput st;
     audioSrc := audioSrc st; playRequests := playRequests st; toast := v;
     likedTracks := likedTracks st; extractions := extractions st;
     lookups := lookups st |}.

Definition with_likedTracks (v : list string) (st : Player) : Player :=
  {| heap := heap st; playlist := playlist st;
     currentIndex := currentIndex st; isPlaying := isPlaying st;
     shuffleMode := shuffleMode st; repeatMode := repeatMode st;
     originalPlaylist := originalPlaylist st;
     loadingStates := loadingStates st; linksInput := linksInput st;
     audioSrc := audioSrc st; playRequests := playRequests st;
     toast := toast st; likedTracks := v; extractions := extractions st;
     lookups := lookups st |}.

Definition with_extractions (v : list (string * list string)) (st : Player) : Player :=
  {| heap := heap st; playlist := playlist st;
     currentIndex := currentIndex st; isPlaying := isPlaying st;
     shuffleMode := shuffleMode st; repeatMode := repeatMode st;
     originalPlaylist := originalPlaylist st;
     loadingStates := loadingStates st; linksInput := linksInput st;
     audioSrc := audioSrc st; playRequests := playRequests st;
     toast := toast st; likedTracks := likedTracks st; extractions := v;
     lookups := lookups st |}.

Definition with_lookups (v : list loc) (st : Player) : Player :=
  {| heap := heap st; playlist := playlist st;
     currentIndex := currentIndex st; isPlaying := isPlaying st;
     shuffleMode := shuffleMode st; repeatMode := repeatMode st;
     originalPlaylist := originalPlaylist st;
     loadingStates := loadingStates st; linksInput := linksInput st;
     audioSrc := audioSrc st; playRequests := playRequests st;
     toast := toast st; likedTracks := likedTracks st;
     extractions := extractions st; lookups := v |}.


Definition init (liked : list string) : Player :=
  {| heap := []; playlist := []; currentIndex := 0; isPlaying := false;
     shuffleMode := false; repeatMode := RepeatNone; originalPlaylist := [];
     loadingStates := ∅; linksInput := ""; audioSrc := None;
     playRequests := 0; toast := None; likedTracks := liked;
     extractions := []; lookups := [] |}.

(** [array[i]] for a number [i]: [undefined] outside the array. *)
Definition at_index {A} (l : list A) (i : Z) : option A :=
  if i <? 0 then None else l !! Z.to_nat i.

Definition deref (st : Player) (r : loc) : option Track := heap st !! r.

(** [this.playlist[i]] *)
Definition track_at (st : Player) (i : Z) : option Track :=
  match at_index (playlist st) i with
  | Some r => deref st r
  | None => None
  end.

(** The tracks of the playlist as an observer reads them. *)
Definition tracks (st : Player) : list (option Track) :=
  map (deref st) (playlist st).

Definition uuid_at (st : Player) (i : Z) : option string :=
  option_map uuid (track_at st i).

(** [PlaylistStorage.isTrackLiked] *)
Definition isTrackLiked (st : Player) (u : string) : bool :=
  existsb (String.eqb u) (likedTracks st).

(** *** Transport *)

(** [loadTrack(index)] *)
Definition loadTrack (index : Z) (st : Player) : Player :=
  if (index <? 0) || (Z.of_nat (length (playlist st)) <=? index) then st
  else
    with_audioSrc (option_map mp3Url (track_at st index))
      (with_currentIndex index st).

(** [play()]: the flag is set only when the promise of
    [audioPlayer.play()] is fulfilled, see [playFulfilled]. *)
Definition play (st : Player) : Player :=
  match playlist st with
  | [] => st
  | _ :: _ => with_playRequests (S (playRequests st)) st
  end.

Definition playFulfilled (st : Player) : option Player :=
  match playRequests st with
  | O => None
  | S n => Some (with_isPlaying true (with_playRequests n st))
  end.

Definition playRejected (st : Player) : option Player :=
  match playRequests st with
  | O => None
  | S n => Some (with_playRequests n st)
  end.

Definition pause (st : Player) : Player := with_isPlaying false st.

Definition togglePlay (st : Player) : Player :=
  if isPlaying st then pause st else play st.

(** The common tail of [playNext] and [playPrevious]. *)
Definition loadAndResume (index : Z) (st : Player) : Player :=
  let st' := loadTrack index st in
  if isPlaying st' then play st' else st'.

Definition playNext (st : Player) : Player :=
  match playlist st with
  | [] => st
  | _ :: _ =>
      let nextIndex := currentIndex st + 1 in
      if Z.of_nat (length (playlist st)) <=? nextIndex then
        match repeatMode st with
        | RepeatAll => loadAndResume 0 st
        | _ => st
        end
      else loadAndResume nextIndex st
  end.

Definition playPrevious (st : Player) : Player :=
  match playlist st with
  | [] => st
  | _ :: _ =>
      let prevIndex := currentIndex st - 1 in
      if prevIndex <? 0 then
        match repeatMode st with
        | RepeatAll =>
            loadAndResume (Z.of_nat (length (playlist st)) - 1) st
        | _ => st
        end
      else loadAndResume prevIndex st
  end.

(** The [ended] listener of the audio element. *)
Definition audioEnded (st : Player) : Player :=
  match repeatMode st with
  | RepeatOne => play st
  | _ => playNext st
  end.

(** [handleError] *)
Definition handleError (st : Player) : Player := playNext st.

(** [toggleRepeat]: [modes[(modes.indexOf(mode) + 1) % modes.length]]. *)
Definition nextRepeatMode (m : RepeatMode) : RepeatMode :=
  match m with
  | RepeatNone => RepeatAll
  | RepeatAll => RepeatOne
  | RepeatOne => RepeatNone
  end.

Definition toggleRepeat (st : Player) : Player :=
  let m := nextRepeatMode (repeatMode st) in
  with_toast (Some (ToastRepeat m)) (with_repeatMode m st).

(** [clearPlaylist]; [confirmed] is the answer to [confirm('Clear?')]. *)
Definition clearPlaylist (confirmed : bool) (st : Player) : Player :=
  if confirmed then with_playlist [] st else st.

(** [findIndex]: the first position whose element satisfies [p]. *)
Fixpoint findIndex {A} (p : A -> bool) (l : list A) : option nat :=
  match l with
  | [] => None
  | x :: l' =>
      if p x then Some O else option_map S (findIndex p l')
  end.

Definition has_uuid (st : Player) (u : string) (r : loc) : bool :=
  match deref st r with
  | Some t => String.eqb (uuid t) u
  | None => false
  end.

(** [syncInputToPlaylist] *)
Definition syncInputToPlaylist (st : Player) : Player :=
  with_linksInput
    (JS.join (String "010" "") (map (fun t => match t with
                | Some t => "https://suno.com/song/" +:+ uuid t
                | None => ""
                end) (tracks st))) st.

(** [reorderPlaylist(fromIndex, toIndex)].  The drop handler takes
    [fromIndex] from a rendered row; for [fromIndex] beyond the array the
    source would splice [undefined] into the array, which this model does
    not represent: the result is [None] there. *)
Definition reorderPlaylist (fromIndex toIndex : Z) (st : Player)
  : option Player :=
  if (fromIndex =? toIndex) || (fromIndex <? 0) || (toIndex <? 0)
  then Some st
  else
    match playlist st !! Z.to_nat fromIndex with
    | None => None
    | Some movedTrack =>
        let currentUuid := uuid_at st (currentIndex st) in
        let removed := delete (Z.to_nat fromIndex) (playlist st) in
        let current :=
          (take (Z.to_nat toIndex) removed ++
           movedTrack :: drop (Z.to_nat toIndex) removed)%list in
        let st1 := with_originalPlaylist current (with_playlist current st) in
        let st2 :=
          match currentUuid with
          | Some (String c u) =>
              match findIndex (has_uuid st1 (String c u)) current with
              | Some newIndex => with_currentIndex (Z.of_nat newIndex) st1
              | None => st1
              end
          | _ => st1
          end in
        Some (with_toast (Some ToastReordered) (syncInputToPlaylist st2))
    end.

(** *** Loading *)

(** The track object [loadPlaylist] pushes for [u]. *)
Definition newTrack (st : Player) (u : string) : Track :=
  {| uuid := u;
     mp3Url := "https://cdn1.suno.ai/" +:+ u +:+ ".mp3";
     title := "Track " +:+ pretty (length (playlist st) + 1)%nat;
     artist := "Loading...";
     thumbnail := None;
     isLiked := isTrackLiked st u;
     error := None |}.

Definition pushTrack (u : string) (st : Player) : Player :=
  with_loadingStates (<[u := StLoading]> (loadingStates st))
    (with_playlist (playlist st ++ [length (heap st)])%list
       (with_heap (heap st ++ [newTrack st u])%list st)).

(** The end of [loadPlaylist] after the extraction loop, up to the
    creation of the metadata closures.  (The tail after
    [await Promise.all], which rewrites the address bar and saves the
    session, touches neither the playlist nor the transport.) *)
Definition finishLoad (st : Player) : Player :=
  match playlist st with
  | [] => with_toast (Some ToastNoValidLinks) st
  | _ :: _ =>
      let st' := loadTrack 0 st in
      with_lookups (lookups st' ++ playlist st')%list st'
  end.

(** The extraction loop from the current line on, until it suspends on a
    short link or finishes. *)
Fixpoint extractLoop (lines : list string) (st : Player) : Player :=
  match lines with
  | [] => finishLoad st
  | line :: rest =>
      match Extractor.extractUUID line with
      | Some u => extractLoop rest (pushTrack u st)
      | None =>
          if JS.includes "/s/" line then
            match Extractor.shortMatch line with
            | Some shortId =>
                with_extractions
                  (extractions st ++ [(shortId, rest)])%list st
            | None => extractLoop rest st
            end
          else extractLoop rest st
      end
  end.

(** [text.split('\n').map(l => l.trim()).filter(l => l)] *)
Definition linesOf (text : string) : list string :=
  List.filter JS.truthy (map JS.trim (JS.split "010" text)).

(** [loadPlaylist()] up to its first suspension. *)
Definition loadPlaylist (st : Player) : Player :=
  match JS.trim (linksInput st) with
  | EmptyString => st
  | text =>
      extractLoop (linesOf text)
        (with_loadingStates ∅
           (with_playlist [] (with_toast (Some ToastLoading) st)))
  end.

(** [resolveShortLink]: [data.uuid || null], and [null] on any failure;
    [answer] is [data.uuid] or [None] for a failed request. *)
Definition resolveShortLink (answer : option string) : option string :=
  JS.or_else answer None.

Fixpoint remove_first {A} (eqb : A -> A -> bool) (x : A) (l : list A)
  : option (list A) :=
  match l with
  | [] => None
  | y :: l' =>
      if eqb x y then Some l'
      else option_map (cons y) (remove_first eqb x l')
  end.

Definition extraction_eqb (a b : string * list string) : bool :=
  bool_decide (a = b).

(** A suspended [loadPlaylist] resumes with the answer of the short-link
    service. *)
Definition shortLinkResolved (shortId : string) (rest : list string)
    (answer : option string) (st : Player) : option Player :=
  match remove_first extraction_eqb (shortId, rest) (extractions st) with
  | None => None
  | Some others =>
      let st1 := with_extractions others st in
      let st2 :=
        match resolveShortLink answer with
        | Some u => pushTrack u st1
        | None => st1
        end in
      Some (extractLoop rest st2)
  end.

(** *** Metadata resolution *)

(** [fetchSongMetadata(uuid, retries)]: [server k] is what attempt [k]
    receives; the result is [None] when the loop ends without a
    [return]. *)
Fixpoint fetchAttempts (server : nat -> Response) (attempt remaining : nat)
  : option Metadata :=
  match remaining with
  | O => None
  | S remaining' =>
      let giveUp (message : string) :=
        match remaining' with
        | O => Some (mkMetadata None None None (Some message))
        | S _ => fetchAttempts server (S attempt) remaining'
        end in
      match server attempt with
      | Json (Some (String c t)) a th =>
          Some (mkMetadata (Some (String c t))
                  (Some (match a with
                         | Some (String c' a') => String c' a'
                         | _ => "SUNO"
                         end))
                  th None)
      | Json _ _ _ => giveUp "No metadata"
      | Failure message => giveUp message
      end
  end.

Definition fetchSongMetadata (server : nat -> Response) : option Metadata :=
  fetchAttempts server 0 3.

Section WithHost.
Context `{Host}.

(** [decodeHtmlEntities] *)
Definition decodeHtmlEntities (text : option string) : string :=
  match text with
  | Some (String c t) => textarea_decode (String c t)
  | _ => ""
  end.

(** The body of a metadata closure after its [await], on the track
    object [r] it captured.  (The rendering that follows the writes, and
    the exception it raises when the cursor is outside the playlist,
    change nothing of the state.) *)
Definition applyMetadata (r : loc) (meta : option Metadata)
    (st : Player) : Player :=
  match deref st r with
  | None => st
  | Some track =>
      match meta with
      | Some (mkMetadata (Some (String c t)) a th _) =>
          let track' :=
            {| uuid := uuid track; mp3Url := mp3Url track;
               title := decodeHtmlEntities (Some (String c t));
               artist := decodeHtmlEntities a;
               thumbnail := th;
               isLiked := isLiked track; error := error track |} in
          with_loadingStates (<[uuid track := StLoaded]> (loadingStates st))
            (with_heap (<[r := track']> (heap st)) st)
      | _ =>
          let track' :=
            {| uuid := uuid track; mp3Url := mp3Url track;
               title := title track;
               artist := "Error";
               thumbnail := thumbnail track;
               isLiked := isLiked track; error := error track |} in
          with_loadingStates (<[uuid track := StError]> (loadingStates st))
            (with_heap (<[r := track']> (heap st)) st)
      end
  end.

Definition metadataArrived (r : loc) (server : nat -> Response)
    (st : Player) : option Player :=
  match remove_first Nat.eqb r (lookups st) with
  | None => None
  | Some others =>
      Some (applyMetadata r (fetchSongMetadata server)
              (with_lookups others st))
  end.

(** *** Shuffle *)

(** [toggleShuffle]; [bits] are the random bits the sort draws. *)
Definition toggleShuffle (bits : list bool) (st : Player) : Player :=
  let st1 := with_shuffleMode (negb (shuffleMode st)) st in
  let st2 :=
    if shuffleMode st1 then
      with_playlist (sort_random bits (playlist st1))
        (with_originalPlaylist (playlist st1) st1)
    else with_playlist (originalPlaylist st1) st1 in
  loadTrack 0 (with_currentIndex 0 st2).

(** *** Events

    Everything that can happen to the player: the user's actions, and
    the completions of the asynchronous operations it started. *)
Inductive Event :=
| EditInput (text : string)
| ClickLoad
| ClickTrack (index : Z)
| TogglePlay
| Next
| Previous
| ToggleShuffle (bits : list bool)
| ToggleRepeat
| ClearPlaylist (confirmed : bool)
| DropTrack (fromIndex toIndex : Z)
| ShortLinkResolved (shortId : string) (rest : list string)
    (answer : option string)
| MetadataArrived (r : loc) (server : nat -> Response)
| AudioPlayFulfilled
| AudioPlayRejected
| AudioEnded
| AudioError.

(** One event; [None] when the event cannot occur in this state. *)
Definition step (e : Event) (st : Player) : option Player :=
  match e with
  | EditInput text => Some (with_linksInput text st)
  | ClickLoad => Some (loadPlaylist st)
  | ClickTrack index => Some (play (loadTrack index st))
  | TogglePlay => Some (togglePlay st)
  | Next => Some (playNext st)
  | Previous => Some (playPrevious st)
  | ToggleShuffle bits => Some (toggleShuffle bits st)
  | ToggleRepeat => Some (toggleRepeat st)
  | ClearPlaylist confirmed => Some (clearPlaylist confirmed st)
  | DropTrack fromIndex toIndex => reorderPlaylist fromIndex toIndex st
  | ShortLinkResolved shortId rest answer =>
      shortLinkResolved shortId rest answer st
  | MetadataArrived r server => metadataArrived r server st
  | AudioPlayFulfilled => playFulfilled st
  | AudioPlayRejected => playRejected st
  | AudioEnded => Some (audioEnded st)
  | AudioError => Some (handleError st)
  end.

Fixpoint run (events : list Event) (st : Player) : option Player :=
  match events with
  | [] => Some st
  | e :: rest =>
      match step e st with
      | Some st' => run rest st'
      | None => None
      end
  end.

(** *** Shuffle as a random experiment *)

(** All sequences of [m] random bits; each is equally likely. *)
Fixpoint bitstrings (m : nat) : list (list bool) :=
  match m with
  | O => [[]]
  | S m' =>
      (map (cons true) (bitstrings m') ++ map (cons false) (bitstrings m'))%list
  end.

(** The order of the playlist after [toggleShuffle], for each sequence of
    [m] random bits. *)
Definition shuffle_outcomes (m : nat) (st : Player) : list (list loc) :=
  map (fun bits => playlist (toggleShuffle bits st)) (bitstrings m).

(** Uniformity: every order of the playlist comes out with probability
    [1 / n!], that is for [2^m / n!] of the [2^m] bit sequences. *)
Definition uniform_shuffle (m : nat) (st : Player) : Prop :=
  forall order : list loc,
    Permutation order (playlist st) ->
    (length (List.filter (fun o => bool_decide (o = order))
                         (shuffle_outcomes m st))
     * fact (length (playlist st)) = 2 ^ m)%nat.

(** *** Supersession *)

(** The completion of a metadata lookup on a track object allocated before
    the heap had [b] objects. *)
Definition superseded (b : nat) (e : Event) : bool :=
  match e with
  | MetadataArrived r _ => (r <? b)%nat
  | _ => false
  end.

(** The events with those completions left out. *)
Definition erase_superseded (b : nat) (events : list Event) : list Event :=
  List.filter (fun e => negb (superseded b e)) events.

(** Every event but a shuffle toggle.  (Leaving shuffle puts
    [originalPlaylist] back, an array that a load does not replace.) *)
Definition no_shuffle_toggle (e : Event) : Prop :=
  match e with
  | ToggleShuffle _ => False
  | _ => True
  end.

End WithHost.

(** *** Predicates on states *)


(** Every reference held anywhere is allocated. *)
Definition allocated (st : Player) (l : list loc) : Prop :=
  Forall (fun r => (r < length (heap st))%nat) l.

(** No [loadPlaylist] is suspended in its extraction loop. *)
Definition idle (st : Player) : Prop := extractions st = [].



(** *** What a later load can see

    [b] is the number of track objects allocated when a load begins; the
    objects at [b] and beyond are the ones it and its successors create. *)

Definition fresh (b : nat) (l : list loc) : Prop :=
  Forall (fun r => (b <= r)%nat) l.

Definition recent (b : nat) (l : list loc) : list loc :=
  List.filter (fun r => (b <=? r)%nat) l.

(** Two states that differ at most in the track objects older than [b], in
    the lookups pending on them and in the loading-state map, and whose
    playlist only holds objects from [b] on. *)
Record agree (b : nat) (s1 s2 : Player) : Prop := mkAgree {
  agree_allocated : (b <= length (heap s1))%nat;
  agree_length : length (heap s1) = length (heap s2);
  agree_heap : forall r, (b <= r)%nat -> heap s1 !! r = heap s2 !! r;
  agree_playlist : playlist s1 = playlist s2;
  agree_fresh : fresh b (playlist s1);
  agree_currentIndex : currentIndex s1 = currentIndex s2;
  agree_isPlaying : isPlaying s1 = isPlaying s2;
  agree_shuffleMode : shuffleMode s1 = shuffleMode s2;
  agree_repeatMode : repeatMode s1 = repeatMode s2;
  agree_originalPlaylist : originalPlaylist s1 = originalPlaylist s2;
  agree_linksInput : linksInput s1 = linksInput s2;
  agree_audioSrc : audioSrc s1 = audioSrc s2;
  agree_playRequests : playRequests s1 = playRequests s2;
  agree_toast : toast s1 = toast s2;
  agree_likedTracks : likedTracks s1 = likedTracks s2;
  agree_extractions : extractions s1 = extractions s2;
  agree_lookups : recent b (lookups s1) = recent b (lookups s2)
}.

(** [st'] has the object store, the arrays and the pending lookups of
    [st], up to the contents of the track objects. *)
Definition same_store (st st' : Player) : Prop :=
  length (heap st') = length (heap st) /\
  playlist st' = playlist st /\
  originalPlaylist st' = originalPlaylist st /\
  lookups st' = lookups st.

Definition wf (st : Player) : Prop :=
  allocated st (playlist st) /\ allocated st (originalPlaylist st) /\
  allocated st (lookups st).

End Player.

(** ** Reference instances

    A codec and a host on which the model runs, used to instantiate the
    theorems on concrete inputs. *)

Module Reference.

(** The token is the text behind a one-character tag. *)
Definition tagged : LZString :=
  {| compressToEncodedURIComponent s := String "Q" s;
     decompressFromEncodedURIComponent t :=
       match t with
       | EmptyString => None
       | String _ s => Some s
       end |}.

(** Insertion of [x] into an array already ordered: [x] moves left past an
    element each time the comparator answers so. *)
Fixpoint insert_random {A} (bits : list bool) (x : A) (sorted : list A)
  {struct sorted} : list A * list bool :=
  match sorted with
  | [] => ([x], bits)
  | y :: rest =>
      match bits with
      | true :: bits' => (x :: y :: rest, bits')
      | false :: bits' =>
          let '(placed, bits'') := insert_random bits' x rest in
          (y :: placed, bits'')
      | [] => (x :: y :: rest, [])
      end
  end.

(** An insertion sort whose comparisons are answered by the random bits. *)
Definition insertion_sort_random {A} (bits : list bool) (l : list A)
  : list A :=
  fst (fold_left (fun acc x => insert_random (snd acc) x (fst acc)) l ([], bits)).

Definition quote : string := String "034" "".

Definition host : Host :=
  {| JSON_stringify l :=
       "[" +:+ JS.join "," (map (fun s => quote +:+ s +:+ quote) l) +:+ "]";
     textarea_decode s := s;
     sort_random := @insertion_sort_random |}.

Definition id1 : string := "11111111-1111-1111-1111-111111111111".
Definition id2 : string := "22222222-2222-2222-2222-222222222222".
Definition id3 : string := "33333333-3333-3333-3333-333333333333".

(** 36 hexadecimal digits without any hyphen. *)
Definition plain_token : string := "0123456789abcdef0123456789ABCDEF0123".

Definition link (u : string) : string := "https://suno.com/song/" +:+ u.


(** A metadata service that knows every track, and one that is down. *)
Definition answering : nat -> Player.Response :=
  fun _ => Player.Json (Some "Night Drive") None None.
Definition failing : nat -> Player.Response :=
  fun _ => Player.Failure "HTTP 500".

(** The player after loading [links] into a fresh page. *)
Definition loaded (links : list string) : Player.Player :=
  Player.loadPlaylist
    (Player.with_linksInput (JS.join (String "010" "") links) (Player.init [])).

End Reference.

(* ===================================================================== *)
(** * Part II: properties                                                 *)
(* ===================================================================== *)

(** ** Strings *)

Module StringFacts.

Lemma append_cons (c : ascii) (s t : string) :
  String c s +:+ t = String c (s +:+ t).
Proof. reflexivity. Qed.

Lemma append_nil_l (t : string) : "" +:+ t = t.
Proof. reflexivity. Qed.

Lemma append_nil_r (s : string) : s +:+ "" = s.
Proof.
  induction s as [|c s IH]; [reflexivity|].
  now rewrite append_cons, IH.
Qed.

Lemma append_assoc (a b c : string) : (a +:+ b) +:+ c = a +:+ (b +:+ c).
Proof.
  induction a as [|x a IH]; [reflexivity|].
  now rewrite !append_cons, IH.
Qed.

Lemma ascii_eqb_true (a b : ascii) : JS.ascii_eqb a b = true <-> a = b.
Proof. unfold JS.ascii_eqb. apply Ascii.eqb_eq. Qed.

Lemma ascii_eqb_refl (a : ascii) : JS.ascii_eqb a a = true.
Proof. now apply ascii_eqb_true. Qed.

End StringFacts.

(** ** Reference instances satisfy the laws *)

Module ReferenceFacts.
Import Reference.

Lemma tagged_laws : LZStringLaws tagged.
Proof. split; reflexivity. Qed.

Lemma insert_random_permutation {A} (bits : list bool) (x : A) (sorted : list A) :
  Permutation (fst (insert_random bits x sorted)) (x :: sorted).
Proof.
  revert bits. induction sorted as [|y rest IH]; intros bits; simpl.
  - reflexivity.
  - destruct bits as [|[] bits']; simpl; try reflexivity.
    specialize (IH bits'). destruct (insert_random bits' x rest) as [placed bits''].
    simpl in *. rewrite IH. apply perm_swap.
Qed.

Lemma fold_insert_permutation {A} (l sorted : list A) (bits : list bool) :
  Permutation
    (fst (fold_left (fun acc x => insert_random (snd acc) x (fst acc)) l
            (sorted, bits)))
    (l ++ sorted).
Proof.
  revert sorted bits. induction l as [|x l IH]; intros sorted bits; simpl.
  - reflexivity.
  - pose proof (insert_random_permutation bits x sorted) as Hins.
    destruct (insert_random bits x sorted) as [placed bits'] eqn:Hi.
    simpl in Hins. rewrite IH, Hins. symmetry. apply Permutation_middle.
Qed.

Lemma host_laws : HostLaws host.
Proof.
  split. intros A bits l. simpl. unfold insertion_sort_random.
  rewrite fold_insert_permutation. now rewrite app_nil_r.
Qed.

End ReferenceFacts.

(** ** Identifier extractor *)

Module ExtractorFacts.
Import Regex Extractor StringFacts Reference.

Lemma all_chars_cons p c s :
  all_chars p (String c s) <-> p c = true /\ all_chars p s.
Proof.
  unfold all_chars; simpl. split.
  - intros Hall. inversion Hall; subst. now split.
  - intros [Hc Hs]. now constructor.
Qed.

(** A run of [n] characters of one class matches exactly the strings of
    [n] such characters. *)
Lemma match_here_repeat p (m rest : string) :
  all_chars p m ->
  match_here (repeat p (String.length m)) (m +:+ rest) = Some m.
Proof.
  induction m as [|c m IH]; intros Hall; [reflexivity|].
  apply all_chars_cons in Hall as [Hc Hm].
  rewrite append_cons. simpl. rewrite Hc, (IH Hm). reflexivity.
Qed.

Lemma match_here_app t1 t2 m1 m2 r :
  match_here t1 (m1 +:+ r) = Some m1 ->
  match_here t2 r = Some m2 ->
  match_here (t1 ++ t2)%list (m1 +:+ r) = Some (m1 +:+ m2).
Proof.
  revert m1. induction t1 as [|p t1 IH]; intros m1; simpl.
  - intros [= <-]. now rewrite !append_nil_l.
  - destruct m1 as [|c m1]; rewrite ?append_nil_l, ?append_cons.
    + destruct r as [|c r]; [discriminate|].
      destruct (p c); [|discriminate].
      destruct (match_here t1 r); discriminate.
    + destruct (p c); [|discriminate].
      destruct (match_here t1 (m1 +:+ r)) as [m'|] eqn:Hm'; [|discriminate].
      intros [= ->] H2. now rewrite (IH _ Hm' H2).
Qed.

Lemma search_here t s m : match_here t s = Some m -> search t s = Some m.
Proof. intros Hm. destruct s; simpl; now rewrite Hm. Qed.

Lemma match_here_repeat_inv p n s m :
  match_here (repeat p n) s = Some m ->
  String.length m = n /\ all_chars p m.
Proof.
  revert s m. induction n as [|n IH]; intros s m; simpl.
  - intros [= <-]. split; [reflexivity | constructor].
  - destruct s as [|c s]; [discriminate|].
    destruct (p c) eqn:Hc; [|discriminate].
    destruct (match_here (repeat p n) s) as [m'|] eqn:Hm; [|discriminate].
    intros [= <-]. destruct (IH _ _ Hm) as [Hlen Hall].
    split; [simpl; now rewrite Hlen | now apply all_chars_cons].
Qed.

(** Matching a concatenation splits the match. *)
Lemma match_here_app_inv t1 t2 s m :
  match_here (t1 ++ t2)%list s = Some m ->
  exists m1 m2 r,
    m = m1 +:+ m2 /\ s = m1 +:+ r /\
    match_here t1 s = Some m1 /\ match_here t2 r = Some m2.
Proof.
  revert s m. induction t1 as [|p t1 IH]; intros s m; simpl.
  - intros Hm. exists "", m, s. repeat split; assumption.
  - destruct s as [|c s]; [discriminate|].
    destruct (p c); [|discriminate].
    destruct (match_here (t1 ++ t2)%list s) as [m'|] eqn:Hm'; [|discriminate].
    intros [= <-].
    destruct (IH _ _ Hm') as (m1 & m2 & r & -> & -> & H1 & H2).
    exists (String c m1), m2, r. rewrite H1, !append_cons.
    repeat split; assumption.
Qed.

(** Whatever [search] returns matched at some position. *)
Lemma search_match_here t s m :
  search t s = Some m -> exists s', match_here t s' = Some m.
Proof.
  induction s as [|c s IH]; simpl.
  - destruct (match_here t "") eqn:Hm; [|discriminate].
    intros [= <-]. eauto.
  - destruct (match_here t (String c s)) eqn:Hm.
    + intros [= <-]. eauto.
    + exact IH.
Qed.

Lemma lit_i_hyphen (x : ascii) : lit_i "-" x = true -> x = "-"%char.
Proof.
  destruct x as [[] [] [] [] [] [] [] []]; vm_compute;
    intros Heq; first [reflexivity | discriminate Heq].
Qed.

Lemma match_here_hyphen s m :
  match_here [lit_i "-"] s = Some m -> m = "-".
Proof.
  simpl. destruct s as [|c s]; [discriminate|].
  destruct (lit_i "-" c) eqn:Hc; [|discriminate].
  intros [= <-]. now rewrite (lit_i_hyphen _ Hc).
Qed.

(** The bare pattern only matches the 8-4-4-4-12 shape. *)
Lemma uuidPattern_canonical s m :
  match_here uuidPattern s = Some m -> canonical_shape m.
Proof.
  unfold uuidPattern. intros Hm.
  apply match_here_app_inv in Hm as (a & m1 & r1 & -> & -> & Ha & Hm).
  apply match_here_app_inv in Hm as (h1 & m2 & r2 & -> & -> & Hh1 & Hm).
  apply match_here_app_inv in Hm as (b & m3 & r3 & -> & -> & Hb & Hm).
  apply match_here_app_inv in Hm as (h2 & m4 & r4 & -> & -> & Hh2 & Hm).
  apply match_here_app_inv in Hm as (c & m5 & r5 & -> & -> & Hc & Hm).
  apply match_here_app_inv in Hm as (h3 & m6 & r6 & -> & -> & Hh3 & Hm).
  apply match_here_app_inv in Hm as (d & m7 & r7 & -> & -> & Hd & Hm).
  apply match_here_app_inv in Hm as (h4 & e & r8 & -> & -> & Hh4 & He).
  apply match_here_hyphen in Hh1, Hh2, Hh3, Hh4. subst h1 h2 h3 h4.
  apply match_here_repeat_inv in Ha, Hb, Hc, Hd, He.
  exists a, b, c, d, e. repeat split; tauto.
Qed.

Lemma canonical_hyphen_at_8 u :
  canonical_shape u -> String.get 8 u = Some "-"%char.
Proof.
  intros (a & b & c & d & e & -> & [Ha _] & _).
  do 9 (destruct a as [|? a]; try discriminate Ha).
  reflexivity.
Qed.


Lemma plain_token_song_token : song_token plain_token.
Proof. split; [reflexivity | repeat constructor]. Qed.

Lemma plain_token_not_canonical : ~ canonical_shape plain_token.
Proof. intros Hc. apply canonical_hyphen_at_8 in Hc. discriminate Hc. Qed.

(** C10. The resource-path pattern takes any 36 hexadecimal digits and
    hyphens after [/song/] as the identifier, whatever their arrangement:
    for every such token [extractUUID] returns it, and there is a line
    whose token is not of the 8-4-4-4-12 shape, is returned all the same
    and is not matched by the bare pattern; the bare pattern matches
    8-4-4-4-12 tokens only. *)
Theorem song_pattern_accepts_any_run (t rest : string) :
  song_token t ->
  extractUUID ("/song/" +:+ t +:+ rest) = Some t /\
  (exists line t0,
      song_token t0 /\ ~ canonical_shape t0 /\
      extractUUID line = Some t0 /\ uuidMatch line = None) /\
  (forall line u, uuidMatch line = Some u -> canonical_shape u).
Proof.
  intros [Hlen Hall]. split; [|split].
  - unfold extractUUID, songMatch, songPattern.
    rewrite <- append_assoc.
    rewrite (search_here _ _ ("/song/" +:+ t)); [reflexivity|].
    rewrite append_assoc.
    apply match_here_app; [vm_compute; reflexivity|].
    rewrite <- Hlen. now apply match_here_repeat.
  - exists ("https://suno.com/song/" +:+ plain_token), plain_token.
    split; [exact plain_token_song_token|].
    split; [exact plain_token_not_canonical|].
    split; vm_compute; reflexivity.
  - intros line u Hu. apply search_match_here in Hu as [s' Hs'].
    now apply uuidPattern_canonical in Hs'.
Qed.

Lemma song_token_witness :
  song_token "------------------------------------".
Proof. split; [reflexivity | repeat constructor]. Qed.

Lemma song_pattern_accepts_any_run_witness :
  song_token "------------------------------------" /\
  extractUUID ("/song/" +:+ "------------------------------------" +:+ "?x")
  = Some "------------------------------------".
Proof.
  split; [exact song_token_witness|].
  apply (song_pattern_accepts_any_run
           "------------------------------------" "?x").
  exact song_token_witness.
Defined.

End ExtractorFacts.

(** ** Compact encoder and decoder *)


Module CodecFacts.
Import Codec Extractor StringFacts Reference ReferenceFacts.



Lemma split_nonempty c s : JS.split c s <> [].
Proof.
  destruct s as [|a s]; simpl; [discriminate|].
  destruct (JS.ascii_eqb a c); [discriminate|].
  destruct (JS.split c s); discriminate.
Qed.

Lemma split_comma_free (x : string) : comma_free x -> JS.split "," x = [x].
Proof.
  induction x as [|a x IH]; intros Hx; [reflexivity|].
  apply ExtractorFacts.all_chars_cons in Hx as [Ha Hx].
  simpl. apply Bool.negb_true_iff in Ha. rewrite Ha, (IH Hx). reflexivity.
Qed.

Lemma split_piece (x r : string) :
  comma_free x -> JS.split "," (x +:+ "," +:+ r) = x :: JS.split "," r.
Proof.
  induction x as [|a x IH]; intros Hx.
  - reflexivity.
  - apply ExtractorFacts.all_chars_cons in Hx as [Ha Hx].
    rewrite append_cons. simpl.
    apply Bool.negb_true_iff in Ha. rewrite Ha, (IH Hx). reflexivity.
Qed.

(** Splitting inverts joining on non-empty lists of comma-free strings. *)
Lemma split_join (l : list string) :
  l <> [] -> Forall comma_free l -> JS.split "," (JS.join "," l) = l.
Proof.
  induction l as [|x l IH]; intros Hne Hall; [congruence|].
  inversion Hall as [|? ? Hx Hl]; subst.
  destruct l as [|y l].
  - simpl. now apply split_comma_free.
  - change (JS.join "," (x :: y :: l))
      with (x +:+ "," +:+ JS.join "," (y :: l)).
    rewrite (split_piece _ _ Hx), IH; [reflexivity | discriminate | assumption].
Qed.

Lemma hex_or_hyphen_not_comma (c : ascii) :
  Regex.hex_or_hyphen_i c = true -> negb (JS.ascii_eqb c ",") = true.
Proof.
  destruct c as [[] [] [] [] [] [] [] []]; vm_compute;
    intros Heq; first [reflexivity | discriminate Heq].
Qed.

Lemma song_token_comma_free (u : string) : song_token u -> comma_free u.
Proof.
  intros [_ Hall]. unfold comma_free, all_chars in *.
  eapply Forall_impl; [exact Hall|].
  intros c Hc. now apply hex_or_hyphen_not_comma.
Qed.

Lemma song_tokens_comma_free (l : list string) :
  Forall song_token l -> Forall comma_free l.
Proof.
  intros Hall. eapply Forall_impl; [exact Hall|].
  exact song_token_comma_free.
Qed.

Lemma song_token_truthy (u : string) : song_token u -> JS.truthy u = true.
Proof. intros [Hlen _]. destruct u; [discriminate Hlen | reflexivity]. Qed.

Lemma join_truthy (l : list string) :
  l <> [] -> Forall song_token l -> JS.truthy (JS.join "," l) = true.
Proof.
  destruct l as [|x l]; intros Hne Hall; [congruence|].
  inversion Hall as [|? ? Hx _]; subst.
  apply song_token_truthy in Hx.
  destruct x as [|c x]; [discriminate Hx|].
  destruct l; reflexivity.
Qed.

Section WithLaws.
Context `{LZStringLaws}.

Lemma decode_encode (l : list string) :
  decodeCompressed (encode l) = Some (JS.split "," (JS.join "," l)).
Proof.
  unfold decodeCompressed, encode. now rewrite decompress_compress.
Qed.

(** The encoding of the empty list decodes to one empty identifier. *)
Lemma decode_encode_empty : decodeCompressed (encode []) = Some [""].
Proof. now rewrite decode_encode. Qed.

Lemma encode_truthy (l : list string) : JS.truthy (encode l) = true.
Proof.
  unfold encode. destruct (compressToEncodedURIComponent _) eqn:Hc;
    [|reflexivity].
  pose proof (decompress_compress (JS.join "," l)) as Hd.
  rewrite Hc, decompress_empty in Hd. discriminate Hd.
Qed.
End WithLaws.

(** C1 (as the code has it).  For every non-empty ordered list of valid
    identifiers, with repetitions or of length 1, decoding the encoded
    token gives the list back, in the same order and multiplicity.  The
    empty list is excluded: [updateURL] never encodes it, and the token
    of the empty text decodes to the one-element list [[""]]. *)
Theorem decode_encode_nonempty `{LZStringLaws} (pathname : string)
    (l : list string) :
  l <> [] -> Forall song_token l ->
  decodeCompressed (encode l) = Some l /\
  updateURL pathname [] = None /\
  decodeCompressed (encode []) = Some [""].
Proof.
  intros Hne Hall. split; [|split].
  - rewrite decode_encode, split_join;
      [reflexivity | assumption | now apply song_tokens_comma_free].
  - reflexivity.
  - apply decode_encode_empty.
Qed.


Lemma id1_token : song_token id1.
Proof. split; [reflexivity | repeat constructor]. Qed.

Lemma id2_token : song_token id2.
Proof. split; [reflexivity | repeat constructor]. Qed.

Lemma decode_encode_nonempty_witness :
  [id1; id2; id1] <> [] /\ Forall song_token [id1; id2; id1] /\
  @decodeCompressed tagged (@encode tagged [id1; id2; id1])
  = Some [id1; id2; id1].
Proof.
  assert (Hne : [id1; id2; id1] <> []) by discriminate.
  assert (Hall : Forall song_token [id1; id2; id1])
    by (repeat constructor; first [exact id1_token | exact id2_token]).
  split; [exact Hne|]. split; [exact Hall|].
  exact (proj1 (@decode_encode_nonempty tagged tagged_laws "/" _ Hne Hall)).
Defined.

(** C1 as stated fails on the empty list, whatever the codec. *)
Lemma decode_encode_empty_list_fails :
  ~ (forall lz : LZString, LZStringLaws lz ->
       forall l : list string, Forall song_token l ->
         decodeCompressed (encode l) = Some l).
Proof.
  intros Hclaim.
  specialize (Hclaim tagged tagged_laws [] (List.Forall_nil _)).
  discriminate Hclaim.
Qed.

(** C7.  For every list of identifiers, the legacy branch of
    [loadFromURL] decodes the comma-joined list to the same list as the
    compressed branch decodes its compressed encoding; for a non-empty list
    of valid identifiers both parameters restore that very list.  A short
    identifier in the path wins over both parameters, and the parameter [p]
    wins over [tracks]. *)
Theorem legacy_and_compressed_agree `{LZStringLaws}
    (pathname shortId p : string) (l : list string)
    (anyP anyTracks : option string) :
  decodeCompressed (encode l) = Some (decodeLegacy (JS.join "," l)) /\
  (l <> [] -> Forall song_token l -> shortIdOf pathname = None ->
   loadFromURL pathname None (Some (JS.join "," l)) = RestoreLinks l /\
   loadFromURL pathname (Some (encode l)) anyTracks = RestoreLinks l) /\
  (shortId <> "" ->
   loadFromURL ("/p/" +:+ shortId) anyP anyTracks = FromShortUrl shortId) /\
  (p <> "" -> shortIdOf pathname = None ->
   loadFromURL pathname (Some p) anyTracks = loadFromURL pathname (Some p) None).
Proof.
  split; [apply decode_encode|]. split; [|split].
  - intros Hne Hall Hpath. split.
    + unfold loadFromURL. rewrite Hpath. simpl.
      pose proof (join_truthy l Hne Hall) as Ht.
      destruct (JS.join "," l) as [|c j] eqn:Hj; [discriminate Ht|].
      unfold decodeLegacy. rewrite <- Hj.
      rewrite split_join by (try assumption; now apply song_tokens_comma_free).
      destruct l; [congruence | reflexivity].
    + unfold loadFromURL. rewrite Hpath.
      pose proof (encode_truthy l) as Ht.
      destruct (encode l) as [|c e] eqn:He; [discriminate Ht|].
      simpl. rewrite <- He, decode_encode.
      rewrite split_join by (try assumption; now apply song_tokens_comma_free).
      destruct l; [congruence | reflexivity].
  - intros Hid. unfold loadFromURL, shortIdOf.
    destruct shortId as [|c r]; [congruence | reflexivity].
  - intros Hp Hpath. unfold loadFromURL. rewrite Hpath.
    destruct p as [|c r]; [congruence | reflexivity].
Qed.

Lemma legacy_and_compressed_agree_witness :
  @decodeCompressed tagged (@encode tagged [id1; id2])
  = Some (decodeLegacy (JS.join "," [id1; id2])) /\
  @loadFromURL tagged "/" None (Some (JS.join "," [id1; id2]))
  = @loadFromURL tagged "/" (Some (@encode tagged [id1; id2])) (Some "x").
Proof.
  destruct (@legacy_and_compressed_agree tagged tagged_laws
              "/" "abc" "Qx" [id1; id2] None (Some "x"))
    as (Hdecoders & Hrestore & _).
  split; [exact Hdecoders|].
  assert (Hne : [id1; id2] <> []) by discriminate.
  assert (Hall : Forall song_token [id1; id2])
    by (repeat constructor; first [exact id1_token | exact id2_token]).
  destruct (Hrestore Hne Hall eq_refl) as [Hlegacy Hcompressed].
  now rewrite Hlegacy, Hcompressed.
Defined.

(** Through [loadFromURL] an empty parameter counts as absent: the legacy
    form of the empty list restores nothing, while the compressed encoding
    of the empty list restores one empty identifier. *)
Remark empty_list_through_loadFromURL `{LZStringLaws} :
  loadFromURL "/" None (Some (JS.join "," [])) = NothingToLoad /\
  loadFromURL "/" (Some (encode [])) None = RestoreLinks [""].
Proof.
  split; [reflexivity|].
  unfold loadFromURL. simpl.
  pose proof (encode_truthy []) as Ht.
  destruct (encode []) as [|c e] eqn:He; [discriminate Ht|].
  now rewrite <- He, decode_encode_empty.
Qed.

End CodecFacts.

(** ** Persistence adapter *)

Module StorageFacts.
Import Storage.




Section WithHost.
Context `{Host}.





End WithHost.


End StorageFacts.


(** ** Playback state machine *)

Module PlayerFacts.
Import Player Reference ReferenceFacts.

(** *** Transport *)

Lemma loadTrack_in_range (index : Z) (st : Player) :
  0 <= index < Z.of_nat (length (playlist st)) ->
  loadTrack index st
  = with_audioSrc (option_map mp3Url (track_at st index))
      (with_currentIndex index st).
Proof.
  intros [Hlo Hhi]. unfold loadTrack.
  destruct (index <? 0) eqn:H0; [apply Z.ltb_lt in H0; lia|].
  destruct (Z.of_nat (length (playlist st)) <=? index) eqn:H1;
    [apply Z.leb_le in H1; lia | reflexivity].
Qed.

Lemma loadTrack_out_of_range (index : Z) (st : Player) :
  index < 0 \/ Z.of_nat (length (playlist st)) <= index ->
  loadTrack index st = st.
Proof.
  intros Hout. unfold loadTrack.
  destruct (index <? 0) eqn:H0; [reflexivity|].
  destruct (Z.of_nat (length (playlist st)) <=? index) eqn:H1; [reflexivity|].
  apply Z.ltb_ge in H0. apply Z.leb_gt in H1. lia.
Qed.

Lemma loadTrack_cases (index : Z) (st : Player) :
  loadTrack index st = st \/
  (0 <= index < Z.of_nat (length (playlist st)) /\
   loadTrack index st
   = with_audioSrc (option_map mp3Url (track_at st index))
       (with_currentIndex index st)).
Proof.
  destruct (Z_lt_dec index 0) as [Hneg|Hpos].
  - left. apply loadTrack_out_of_range. now left.
  - destruct (Z_le_dec (Z.of_nat (length (playlist st))) index) as [Hbig|Hin].
    + left. apply loadTrack_out_of_range. now right.
    + right. split; [lia|]. apply loadTrack_in_range. lia.
Qed.

Lemma play_cases (st : Player) :
  play st = st \/ play st = with_playRequests (S (playRequests st)) st.
Proof. unfold play. destruct (playlist st); [now left | now right]. Qed.


Lemma currentIndex_play (st : Player) : currentIndex (play st) = currentIndex st.
Proof. destruct (play_cases st) as [-> | ->]; reflexivity. Qed.

Lemma playlist_play (st : Player) : playlist (play st) = playlist st.
Proof. destruct (play_cases st) as [-> | ->]; reflexivity. Qed.

Lemma isPlaying_play (st : Player) : isPlaying (play st) = isPlaying st.
Proof. destruct (play_cases st) as [-> | ->]; reflexivity. Qed.

Lemma currentIndex_loadAndResume (index : Z) (st : Player) :
  currentIndex (loadAndResume index st) = currentIndex (loadTrack index st).
Proof.
  unfold loadAndResume. destruct (isPlaying _); [apply currentIndex_play | reflexivity].
Qed.

(** C3 (as the code has it).  With the cursor on the last track of a
    non-empty playlist, [playNext] under repeat-all moves the cursor to 0;
    under repeat-none it changes nothing at all: the cursor stays, and so
    does the playing flag (there is no transition to Paused). *)
Theorem next_at_last_index (st : Player) :
  playlist st <> [] ->
  currentIndex st = Z.of_nat (length (playlist st)) - 1 ->
  (repeatMode st = RepeatAll -> currentIndex (playNext st) = 0) /\
  (repeatMode st = RepeatNone ->
   playNext st = st /\
   currentIndex (playNext st) = currentIndex st /\
   isPlaying (playNext st) = isPlaying st).
Proof.
  intros Hne Hlast.
  assert (Hnext : forall mode, repeatMode st = mode ->
            playNext st = match mode with
                          | RepeatAll => loadAndResume 0 st
                          | _ => st
                          end).
  { intros mode <-. unfold playNext.
    destruct (playlist st) as [|r l] eqn:Hp; [congruence|].
    destruct (Z.of_nat (length (r :: l)) <=? currentIndex st + 1) eqn:Hle;
      [reflexivity|].
    apply Z.leb_gt in Hle. lia. }
  split; intros Hmode; rewrite (Hnext _ Hmode).
  - rewrite currentIndex_loadAndResume, loadTrack_in_range; [reflexivity|].
    destruct (playlist st); [congruence | simpl; lia].
  - repeat split.
Qed.

Lemma next_at_last_index_witness :
  let st := loaded [link id1; link id2] in
  let at_end := with_repeatMode RepeatAll (with_currentIndex 1 st) in
  playlist at_end <> [] /\
  currentIndex at_end = Z.of_nat (length (playlist at_end)) - 1 /\
  repeatMode at_end = RepeatAll /\
  currentIndex (playNext at_end) = 0.
Proof.
  cbv zeta.
  set (at_end := with_repeatMode RepeatAll
                   (with_currentIndex 1 (loaded [link id1; link id2]))).
  assert (Hne : playlist at_end <> []) by (vm_compute; discriminate).
  assert (Hlast : currentIndex at_end = Z.of_nat (length (playlist at_end)) - 1)
    by (vm_compute; reflexivity).
  assert (Hmode : repeatMode at_end = RepeatAll) by reflexivity.
  repeat (split; [assumption|]).
  exact (proj1 (next_at_last_index at_end Hne Hlast) Hmode).
Defined.

(** C3 as stated fails: a player that is playing its last track under
    repeat-none is still playing after [playNext]. *)
Lemma next_at_end_keeps_playing :
  exists st,
    @run host [EditInput (link id1); ClickLoad; TogglePlay; AudioPlayFulfilled]
      (init []) = Some st /\
    playlist st <> [] /\
    currentIndex st = Z.of_nat (length (playlist st)) - 1 /\
    repeatMode st = RepeatNone /\
    isPlaying st = true /\
    isPlaying (playNext st) = true.
Proof.
  eexists. split; [vm_compute; reflexivity|].
  repeat split; vm_compute; congruence.
Qed.

(** *** A load without identifiers *)

(** C5 (the code at the failing input).  A player holds one track and is
    playing; the user replaces the input by a text without any link and
    loads.  The "no valid links" message is shown, and the playlist is
    empty afterwards, while the playing flag is still set. *)
Theorem load_without_links_empties_playlist :
  exists before after,
    @run host [EditInput (link id1); ClickLoad; TogglePlay; AudioPlayFulfilled]
      (init []) = Some before /\
    @run host [EditInput "no links here"; ClickLoad] before = Some after /\
    playlist before = [0%nat] /\
    isPlaying before = true /\
    toast after = Some ToastNoValidLinks /\
    playlist after = [] /\
    currentIndex after = currentIndex before /\
    isPlaying after = true.
Proof.
  do 2 eexists. split; [vm_compute; reflexivity|].
  split; [vm_compute; reflexivity|].
  repeat split.
Qed.

(** *** Shuffle *)

Lemma loadTrack_keeps (index : Z) (st : Player) :
  heap (loadTrack index st) = heap st /\
  playlist (loadTrack index st) = playlist st /\
  isPlaying (loadTrack index st) = isPlaying st /\
  shuffleMode (loadTrack index st) = shuffleMode st /\
  repeatMode (loadTrack index st) = repeatMode st /\
  originalPlaylist (loadTrack index st) = originalPlaylist st /\
  linksInput (loadTrack index st) = linksInput st /\
  playRequests (loadTrack index st) = playRequests st /\
  toast (loadTrack index st) = toast st /\
  likedTracks (loadTrack index st) = likedTracks st /\
  extractions (loadTrack index st) = extractions st /\
  lookups (loadTrack index st) = lookups st.
Proof.
  destruct (loadTrack_cases index st) as [-> | [_ ->]]; repeat split.
Qed.

Lemma fact_multiple_of_3 (n : nat) :
  (3 <= n)%nat -> exists k, fact n = (3 * k)%nat.
Proof.
  intros Hlen. induction Hlen as [|n' Hle [k Hk]].
  - now exists 2%nat.
  - exists (k + n' * k)%nat.
    change (fact (S n')) with (fact n' + n' * fact n')%nat.
    rewrite Hk. lia.
Qed.

Lemma pow2_mod_3 (m : nat) : (2 ^ m mod 3 = 1 \/ 2 ^ m mod 3 = 2)%nat.
Proof.
  induction m as [|m IH]; [now left|].
  rewrite Nat.pow_succ_r', <- Nat.Div0.mul_mod_idemp_r.
  destruct IH as [-> | ->]; [now right | now left].
Qed.

Section Shuffle.
Context `{Host}.

Lemma toggleShuffle_fields (bits : list bool) (st : Player) :
  heap (toggleShuffle bits st) = heap st /\
  shuffleMode (toggleShuffle bits st) = negb (shuffleMode st) /\
  playlist (toggleShuffle bits st)
  = (if negb (shuffleMode st) then sort_random bits (playlist st)
     else originalPlaylist st) /\
  originalPlaylist (toggleShuffle bits st)
  = (if negb (shuffleMode st) then playlist st else originalPlaylist st).
Proof.
  unfold toggleShuffle.
  match goal with |- context [loadTrack 0 ?s] =>
    destruct (loadTrack_keeps 0 s)
      as (-> & -> & _ & -> & _ & -> & _)
  end.
  cbn. destruct (negb (shuffleMode st)); repeat split.
Qed.

Lemma currentIndex_toggleShuffle (bits : list bool) (st : Player) :
  currentIndex (toggleShuffle bits st) = 0.
Proof.
  unfold toggleShuffle.
  match goal with |- context [loadTrack 0 ?s] =>
    destruct (loadTrack_cases 0 s) as [-> | [_ ->]]
  end; reflexivity.
Qed.

Lemma tracks_same_heap (st st' : Player) :
  heap st' = heap st -> tracks st' = map (deref st) (playlist st').
Proof.
  intros Hheap. unfold tracks. apply map_ext. intros r.
  unfold deref. now rewrite Hheap.
Qed.

(** C6 (as the code has it).  Starting with shuffle off, two successive
    [toggleShuffle] restore the exact original order of the playlist, and
    after each of them the displayed tracks are a rearrangement of the
    original ones.  The cursor is not kept on the track it pointed to: each
    toggle resets it to 0. *)
Theorem toggleShuffle_twice `{!HostLaws H} (st : Player)
    (bits1 bits2 : list bool) :
  shuffleMode st = false ->
  let st1 := toggleShuffle bits1 st in
  let st2 := toggleShuffle bits2 st1 in
  playlist st2 = playlist st /\
  tracks st2 = tracks st /\
  Permutation (playlist st1) (playlist st) /\
  Permutation (tracks st1) (tracks st) /\
  currentIndex st1 = 0 /\
  currentIndex st2 = 0 /\
  shuffleMode st2 = false.
Proof.
  intros Hoff. cbv zeta.
  destruct (toggleShuffle_fields bits1 st) as (Hh1 & Hm1 & Hp1 & Ho1).
  destruct (toggleShuffle_fields bits2 (toggleShuffle bits1 st))
    as (Hh2 & Hm2 & Hp2 & Ho2).
  rewrite Hoff in *. simpl in *. rewrite Hm1 in *. simpl in *.
  assert (Hperm : Permutation (playlist (toggleShuffle bits1 st)) (playlist st))
    by (rewrite Hp1; apply sort_random_permutation).
  repeat split.
  - congruence.
  - rewrite (tracks_same_heap st) by congruence. unfold tracks. congruence.
  - exact Hperm.
  - rewrite (tracks_same_heap st) by congruence.
    unfold tracks. now apply Permutation_map.
  - apply currentIndex_toggleShuffle.
  - apply currentIndex_toggleShuffle.
  - exact Hm2.
Qed.

(** C4 (what the code does instead).  Whatever sort the engine runs and
    however many random bits it draws, [toggleShuffle] on a playlist of
    three or more tracks is not a uniform shuffle: each order comes out for
    a whole number of the [2^m] equally likely bit sequences, and [2^m] is
    not a multiple of [n!]. *)
Theorem shuffle_never_uniform (m : nat) (st : Player) :
  (3 <= length (playlist st))%nat -> ~ uniform_shuffle m st.
Proof.
  intros Hlen Huniform.
  specialize (Huniform (playlist st) (Permutation_refl _)).
  destruct (fact_multiple_of_3 _ Hlen) as [k Hk]. rewrite Hk in Huniform.
  pose proof (pow2_mod_3 m) as Hpow.
  revert Huniform Hpow.
  generalize (2 ^ m)%nat.
  generalize (length (List.filter (fun o => bool_decide (o = playlist st))
                        (shuffle_outcomes m st))).
  intros c p Hcp Hp. subst p.
  replace (c * (3 * k))%nat with ((c * k) * 3)%nat in Hp by lia.
  rewrite Nat.Div0.mod_mul in Hp. destruct Hp; discriminate.
Qed.

End Shuffle.

Lemma toggleShuffle_twice_witness :
  let st := loaded [link id1; link id2; link id3] in
  shuffleMode st = false /\
  playlist (@toggleShuffle host [] (@toggleShuffle host [false; true; true] st))
  = playlist st.
Proof.
  cbv zeta. split; [reflexivity|].
  exact (proj1 (@toggleShuffle_twice host host_laws
                  (loaded [link id1; link id2; link id3])
                  [false; true; true] [] eq_refl)).
Defined.

(** C6 as stated fails.  With shuffle off and the cursor on the second
    track, the cursor is on the first track after two toggles; and with
    shuffle already on, two toggles end in a fresh shuffle, not in the
    order displayed before. *)
Lemma toggleShuffle_twice_moves_cursor :
  ~ (forall host : Host, HostLaws host ->
       forall (st : Player) (bits1 bits2 : list bool),
         shuffleMode st = false ->
         let st2 := toggleShuffle bits2 (toggleShuffle bits1 st) in
         uuid_at st2 (currentIndex st2) = uuid_at st (currentIndex st)) /\
  ~ (forall host : Host, HostLaws host ->
       forall (st : Player) (bits1 bits2 : list bool),
         playlist (toggleShuffle bits2 (toggleShuffle bits1 st)) = playlist st).
Proof.
  split; intros Hclaim.
  - specialize (Hclaim host host_laws
                  (playNext (loaded [link id1; link id2])) [] [] eq_refl).
    vm_compute in Hclaim. discriminate Hclaim.
  - specialize (Hclaim host host_laws
                  (@toggleShuffle host [true; true; true]
                     (loaded [link id1; link id2; link id3]))
                  [] [false; false; false]).
    vm_compute in Hclaim. discriminate Hclaim.
Qed.

Lemma shuffle_never_uniform_witness :
  let st := loaded [link id1; link id2; link id3] in
  (3 <= length (playlist st))%nat /\ ~ @uniform_shuffle host 3 st.
Proof.
  cbv zeta.
  assert (Hlen : (3 <= length (playlist (loaded [link id1; link id2; link id3])))%nat)
    by (vm_compute; lia).
  split; [exact Hlen|].
  exact (@shuffle_never_uniform host 3 _ Hlen).
Defined.

(** *** The cursor invariant *)




















Section Invariant.
Context `{Host}.






End Invariant.




(** *** References stay allocated *)

Lemma same_store_refl (st : Player) : same_store st st.
Proof. repeat split. Qed.

Lemma same_store_trans (st1 st2 st3 : Player) :
  same_store st1 st2 -> same_store st2 st3 -> same_store st1 st3.
Proof.
  intros (Hh & Hp & Ho & Hl) (Hh' & Hp' & Ho' & Hl'). repeat split; congruence.
Qed.

Lemma same_store_wf (st st' : Player) : same_store st st' -> wf st -> wf st'.
Proof.
  intros (Hh & Hp & Ho & Hl) (Hwp & Hwo & Hwl).
  unfold wf, allocated in *. now rewrite Hh, Hp, Ho, Hl.
Qed.

Lemma same_store_loadTrack (index : Z) (st : Player) :
  same_store st (loadTrack index st).
Proof.
  destruct (loadTrack_cases index st) as [-> | [_ ->]]; repeat split.
Qed.

Lemma same_store_play (st : Player) : same_store st (play st).
Proof. destruct (play_cases st) as [-> | ->]; repeat split. Qed.

Lemma same_store_loadAndResume (index : Z) (st : Player) :
  same_store st (loadAndResume index st).
Proof.
  unfold loadAndResume. destruct (isPlaying _).
  - eapply same_store_trans; [apply same_store_loadTrack | apply same_store_play].
  - apply same_store_loadTrack.
Qed.

Lemma same_store_playNext (st : Player) : same_store st (playNext st).
Proof.
  unfold playNext. destruct (playlist st) eqn:Hp; [apply same_store_refl|].
  destruct (_ <=? _); [|apply same_store_loadAndResume].
  destruct (repeatMode st);
    first [apply same_store_refl | apply same_store_loadAndResume].
Qed.

Lemma same_store_playPrevious (st : Player) : same_store st (playPrevious st).
Proof.
  unfold playPrevious. destruct (playlist st) eqn:Hp; [apply same_store_refl|].
  destruct (_ <? _); [|apply same_store_loadAndResume].
  destruct (repeatMode st);
    first [apply same_store_refl | apply same_store_loadAndResume].
Qed.

Lemma allocated_grow (st st' : Player) (l : list loc) :
  (length (heap st) <= length (heap st'))%nat ->
  allocated st l -> allocated st' l.
Proof.
  intros Hle Hall. unfold allocated in *.
  eapply Forall_impl; [exact Hall|]. intros r Hr. simpl in Hr. lia.
Qed.

Lemma wf_pushTrack (u : string) (st : Player) : wf st -> wf (pushTrack u st).
Proof.
  intros (Hp & Ho & Hl).
  assert (Hgrow : (length (heap st) <= length (heap (pushTrack u st)))%nat)
    by (cbn; rewrite length_app; lia).
  repeat split.
  - unfold allocated. cbn. apply Forall_app. split.
    + eapply Forall_impl; [exact Hp|]. intros r Hr. simpl in Hr.
      rewrite length_app. lia.
    + constructor; [rewrite length_app; simpl; lia | constructor].
  - exact (allocated_grow st _ _ Hgrow Ho).
  - exact (allocated_grow st _ _ Hgrow Hl).
Qed.

Lemma wf_finishLoad (st : Player) : wf st -> wf (finishLoad st).
Proof.
  intros Hwf. unfold finishLoad.
  destruct (playlist st) eqn:Hpl; [exact Hwf|].
  pose proof (same_store_wf _ _ (same_store_loadTrack 0 st) Hwf)
    as (Hp & Ho & Hl).
  repeat split; try assumption.
  unfold allocated in *. cbn. apply Forall_app. now split.
Qed.

Lemma wf_extractLoop (lines : list string) (st : Player) :
  wf st -> wf (extractLoop lines st).
Proof.
  revert st. induction lines as [|line rest IH]; intros st Hwf; simpl.
  - now apply wf_finishLoad.
  - destruct (Extractor.extractUUID line); [now apply IH, wf_pushTrack|].
    destruct (JS.includes "/s/" line); [|now apply IH].
    destruct (Extractor.shortMatch line); [exact Hwf | now apply IH].
Qed.

Lemma wf_loadPlaylist (st : Player) : wf st -> wf (loadPlaylist st).
Proof.
  intros Hwf. unfold loadPlaylist.
  destruct (JS.trim (linksInput st)); [exact Hwf|].
  apply wf_extractLoop. destruct Hwf as (Hp & Ho & Hl).
  repeat split; try assumption. constructor.
Qed.

Lemma remove_first_Forall {A} (eqb : A -> A -> bool) (P : A -> Prop)
    (x : A) (l l' : list A) :
  remove_first eqb x l = Some l' -> Forall P l -> Forall P l'.
Proof.
  revert l'. induction l as [|y l IH]; intros l'; simpl; [discriminate|].
  intros Hrm Hall. inversion Hall as [|? ? Hy Hl]; subst.
  destruct (eqb x y); [now injection Hrm as <-|].
  destruct (remove_first eqb x l) as [l''|]; [|discriminate].
  injection Hrm as <-. constructor; [exact Hy | now apply IH].
Qed.

Lemma wf_reorderPlaylist (fromIndex toIndex : Z) (st st' : Player) :
  reorderPlaylist fromIndex toIndex st = Some st' -> wf st -> wf st'.
Proof.
  unfold reorderPlaylist. destruct (_ || _); [now intros [= <-]|].
  destruct (playlist st !! Z.to_nat fromIndex) as [movedTrack|] eqn:Hmoved;
    [|discriminate].
  intros [= <-] (Hp & Ho & Hl).
  assert (Hcur : Forall (fun r => (r < length (heap st))%nat)
            (take (Z.to_nat toIndex) (delete (Z.to_nat fromIndex) (playlist st)) ++
             movedTrack :: drop (Z.to_nat toIndex)
                             (delete (Z.to_nat fromIndex) (playlist st)))).
  { unfold allocated in Hp. apply Forall_app. split.
    - now apply Forall_take, Forall_delete.
    - constructor.
      + rewrite Forall_lookup in Hp. exact (Hp _ _ Hmoved).
      + now apply Forall_drop, Forall_delete. }
  destruct (uuid_at st (currentIndex st)) as [[|c u]|];
    try destruct (findIndex _ _); repeat split; assumption.
Qed.

Section Allocation.
Context `{HostLaws}.

Lemma wf_toggleShuffle (bits : list bool) (st : Player) :
  wf st -> wf (toggleShuffle bits st).
Proof.
  intros (Hp & Ho & Hl).
  destruct (toggleShuffle_fields bits st) as (Hheap & _ & Hplay & Horig).
  assert (Hlook : lookups (toggleShuffle bits st) = lookups st).
  { unfold toggleShuffle.
    match goal with |- context [loadTrack 0 ?s] =>
      destruct (same_store_loadTrack 0 s) as (_ & _ & _ & ->)
    end.
    destruct (negb (shuffleMode st)); reflexivity. }
  unfold wf, allocated in *. rewrite Hheap, Hplay, Horig, Hlook.
  destruct (negb (shuffleMode st)); repeat split; try assumption.
  now rewrite sort_random_permutation.
Qed.

Lemma wf_applyMetadata (r : loc) (meta : option Metadata) (st : Player) :
  wf st -> wf (applyMetadata r meta st).
Proof.
  apply same_store_wf. unfold applyMetadata.
  destruct (deref st r); [|apply same_store_refl].
  destruct meta as [[[[|c0 t0]|] a0 th0 e0]|]; repeat split;
    cbn; apply length_insert.
Qed.

Lemma wf_step (e : Event) (st st' : Player) :
  step e st = Some st' -> wf st -> wf st'.
Proof.
  destruct e; simpl.
  - intros [= <-]. apply same_store_wf. repeat split.
  - intros [= <-]. apply wf_loadPlaylist.
  - intros [= <-]. apply same_store_wf.
    eapply same_store_trans; [apply same_store_loadTrack | apply same_store_play].
  - intros [= <-]. apply same_store_wf. unfold togglePlay.
    destruct (isPlaying st); [repeat split | apply same_store_play].
  - intros [= <-]. apply same_store_wf, same_store_playNext.
  - intros [= <-]. apply same_store_wf, same_store_playPrevious.
  - intros [= <-]. apply wf_toggleShuffle.
  - intros [= <-]. apply same_store_wf. repeat split.
  - intros [= <-]. destruct confirmed; [|auto].
    intros (Hp & Ho & Hl). repeat split; try assumption. constructor.
  - apply wf_reorderPlaylist.
  - unfold shortLinkResolved. destruct (remove_first _ _ _); [|discriminate].
    intros [= <-] Hwf. apply wf_extractLoop.
    assert (Hwf' : wf (with_extractions l st)) by exact Hwf.
    destruct (resolveShortLink answer); [now apply wf_pushTrack | exact Hwf'].
  - unfold metadataArrived.
    destruct (remove_first _ _ _) as [others|] eqn:Hrm; [|discriminate].
    intros [= <-] (Hp & Ho & Hl). apply wf_applyMetadata.
    repeat split; try assumption.
    exact (remove_first_Forall _ _ _ _ _ Hrm Hl).
  - unfold playFulfilled. destruct (playRequests st); [discriminate|].
    intros [= <-]. apply same_store_wf. repeat split.
  - unfold playRejected. destruct (playRequests st); [discriminate|].
    intros [= <-]. apply same_store_wf. repeat split.
  - intros [= <-]. apply same_store_wf. unfold audioEnded.
    destruct (repeatMode st);
      first [apply same_store_playNext | apply same_store_play].
  - intros [= <-]. apply same_store_wf, same_store_playNext.
Qed.

Lemma wf_run (events : list Event) (st st' : Player) :
  run events st = Some st' -> wf st -> wf st'.
Proof.
  revert st. induction events as [|e events IH]; intros st; simpl.
  - now intros [= <-].
  - destruct (step e st) as [st1|] eqn:Hstep; [|discriminate].
    intros Hrun Hwf. apply (IH _ Hrun). now apply (wf_step e st).
Qed.

(** Every lookup pending in a reachable state is on a track object that
    exists: once a load begins there, the completions of all of them are
    among the superseded events. *)
Lemma pending_lookups_superseded (liked : list string) (events : list Event)
    (st : Player) (server : nat -> Response) :
  run events (init liked) = Some st ->
  Forall (fun r => superseded (length (heap st)) (MetadataArrived r server) = true)
    (lookups st).
Proof.
  intros Hrun.
  assert (Hwf : wf st).
  { apply (wf_run events (init liked)); [exact Hrun|]. repeat split; constructor. }
  destruct Hwf as (_ & _ & Hl). unfold allocated in Hl.
  eapply Forall_impl; [exact Hl|]. intros r Hr. simpl in *.
  now apply Nat.ltb_lt.
Qed.

End Allocation.

(** *** Supersession *)

Lemma agree_track_at (b : nat) (s1 s2 : Player) (i : Z) :
  agree b s1 s2 -> track_at s1 i = track_at s2 i.
Proof.
  intros Ha. unfold track_at, at_index. rewrite <- (agree_playlist _ _ _ Ha).
  destruct (i <? 0); [reflexivity|].
  destruct (playlist s1 !! Z.to_nat i) as [r|] eqn:Hr; [|reflexivity].
  unfold deref. apply (agree_heap _ _ _ Ha).
  pose proof (agree_fresh _ _ _ Ha) as Hfresh.
  unfold fresh in Hfresh. rewrite Forall_forall in Hfresh.
  apply Hfresh. eapply list_elem_of_lookup_2. exact Hr.
Qed.

Lemma agree_tracks (b : nat) (s1 s2 : Player) :
  agree b s1 s2 -> tracks s1 = tracks s2.
Proof.
  intros Ha. unfold tracks. rewrite <- (agree_playlist _ _ _ Ha).
  pose proof (agree_fresh _ _ _ Ha) as Hfresh.
  induction Hfresh as [|r l Hr _ IH]; simpl; [reflexivity|].
  f_equal; [|exact IH]. now apply (agree_heap _ _ _ Ha).
Qed.

Ltac agree_fields Ha :=
  destruct Ha; constructor; cbn -[recent] in *; try congruence;
  try assumption.

Lemma agree_loadTrack (b : nat) (index : Z) (s1 s2 : Player) :
  agree b s1 s2 -> agree b (loadTrack index s1) (loadTrack index s2).
Proof.
  intros Ha. pose proof (agree_track_at b s1 s2 index Ha) as Htrack.
  unfold loadTrack. rewrite <- (agree_playlist _ _ _ Ha).
  destruct (_ || _); [exact Ha|].
  rewrite Htrack. agree_fields Ha.
Qed.

Lemma agree_play (b : nat) (s1 s2 : Player) :
  agree b s1 s2 -> agree b (play s1) (play s2).
Proof.
  intros Ha. unfold play. rewrite <- (agree_playlist _ _ _ Ha).
  destruct (playlist s1); [exact Ha|]. agree_fields Ha.
Qed.

Lemma agree_loadAndResume (b : nat) (index : Z) (s1 s2 : Player) :
  agree b s1 s2 -> agree b (loadAndResume index s1) (loadAndResume index s2).
Proof.
  intros Ha. apply (agree_loadTrack b index) in Ha. unfold loadAndResume.
  rewrite <- (agree_isPlaying _ _ _ Ha).
  destruct (isPlaying _); [now apply agree_play | exact Ha].
Qed.

Lemma agree_playNext (b : nat) (s1 s2 : Player) :
  agree b s1 s2 -> agree b (playNext s1) (playNext s2).
Proof.
  intros Ha. unfold playNext.
  rewrite <- (agree_playlist _ _ _ Ha), <- (agree_currentIndex _ _ _ Ha),
    <- (agree_repeatMode _ _ _ Ha).
  destruct (playlist s1); [exact Ha|].
  destruct (_ <=? _); [|now apply agree_loadAndResume].
  destruct (repeatMode s1); first [exact Ha | now apply agree_loadAndResume].
Qed.

Lemma agree_audioEnded (b : nat) (s1 s2 : Player) :
  agree b s1 s2 -> agree b (audioEnded s1) (audioEnded s2).
Proof.
  intros Ha. unfold audioEnded. rewrite <- (agree_repeatMode _ _ _ Ha).
  destruct (repeatMode s1);
    first [now apply agree_playNext | now apply agree_play].
Qed.

Lemma newTrack_agree (b : nat) (u : string) (s1 s2 : Player) :
  agree b s1 s2 -> newTrack s1 u = newTrack s2 u.
Proof.
  intros Ha. unfold newTrack, isTrackLiked.
  now rewrite (agree_playlist _ _ _ Ha), (agree_likedTracks _ _ _ Ha).
Qed.

Lemma agree_pushTrack (b : nat) (u : string) (s1 s2 : Player) :
  agree b s1 s2 -> agree b (pushTrack u s1) (pushTrack u s2).
Proof.
  intros Ha. pose proof (newTrack_agree b u s1 s2 Ha) as Hnew.
  unfold pushTrack. rewrite Hnew.
  destruct Ha. constructor; cbn -[recent] in *; try congruence; try assumption.
  - rewrite length_app. lia.
  - rewrite !length_app. simpl. lia.
  - intros r Hr.
    destruct (Nat.lt_ge_cases r (length (heap s1))) as [Hlt | Hge].
    + rewrite !lookup_app_l by lia. now apply agree_heap0.
    + rewrite !lookup_app_r by lia. now rewrite agree_length0.
  - unfold fresh in *. apply Forall_app. split; [assumption|].
    constructor; [lia | constructor].
Qed.

Lemma recent_app (b : nat) (l l' : list loc) :
  recent b (l ++ l') = (recent b l ++ recent b l')%list.
Proof. unfold recent. apply List.filter_app. Qed.

Lemma agree_finishLoad (b : nat) (s1 s2 : Player) :
  agree b s1 s2 -> agree b (finishLoad s1) (finishLoad s2).
Proof.
  intros Ha. unfold finishLoad. rewrite <- (agree_playlist _ _ _ Ha).
  destruct (playlist s1) eqn:Hp; [agree_fields Ha|].
  apply (agree_loadTrack b 0) in Ha.
  rewrite <- (agree_playlist _ _ _ Ha).
  destruct Ha. constructor; cbn -[recent] in *; try congruence; try assumption.
  now rewrite !recent_app, agree_lookups0.
Qed.

Lemma agree_extractLoop (b : nat) (lines : list string) (s1 s2 : Player) :
  agree b s1 s2 -> agree b (extractLoop lines s1) (extractLoop lines s2).
Proof.
  revert s1 s2. induction lines as [|line rest IH]; intros s1 s2 Ha; simpl.
  - now apply agree_finishLoad.
  - destruct (Extractor.extractUUID line);
      [now apply IH, agree_pushTrack|].
    destruct (JS.includes "/s/" line); [|now apply IH].
    destruct (Extractor.shortMatch line); [|now apply IH].
    agree_fields Ha.
Qed.


Lemma remove_first_old (b r : nat) (k k' : list loc) :
  (r < b)%nat -> remove_first Nat.eqb r k = Some k' ->
  recent b k' = recent b k.
Proof.
  intros Hold. revert k'. induction k as [|y l IH]; intros k'; simpl;
    [discriminate|].
  destruct (Nat.eqb_spec r y) as [<- | Hne].
  - intros [= <-]. destruct (Nat.leb_spec b r); [lia | reflexivity].
  - destruct (remove_first Nat.eqb r l) as [k''|]; [|discriminate].
    intros [= <-]. simpl. now rewrite (IH k'' eq_refl).
Qed.

Lemma remove_first_recent (b r : nat) (k k' : list loc) :
  (b <= r)%nat -> remove_first Nat.eqb r k = Some k' ->
  remove_first Nat.eqb r (recent b k) = Some (recent b k').
Proof.
  intros Hnew. revert k'. induction k as [|y l IH]; intros k'; simpl;
    [discriminate|].
  destruct (Nat.eqb_spec r y) as [<- | Hne].
  - intros [= <-]. destruct (Nat.leb_spec b r); [|lia].
    simpl. now rewrite Nat.eqb_refl.
  - destruct (remove_first Nat.eqb r l) as [k''|]; [|discriminate].
    intros [= <-]. specialize (IH k'' eq_refl). simpl.
    destruct (b <=? y)%nat; [|exact IH].
    simpl. destruct (Nat.eqb_spec r y); [contradiction|].
    now rewrite IH.
Qed.

Lemma remove_first_recent_inv (b r : nat) (k f : list loc) :
  (b <= r)%nat -> remove_first Nat.eqb r (recent b k) = Some f ->
  exists k', remove_first Nat.eqb r k = Some k' /\ recent b k' = f.
Proof.
  intros Hnew. revert f. induction k as [|y l IH]; intros f; simpl;
    [discriminate|].
  destruct (Nat.eqb_spec r y) as [<- | Hne].
  - destruct (Nat.leb_spec b r); [|lia].
    simpl. rewrite Nat.eqb_refl. intros [= <-]. now exists l.
  - destruct (b <=? y)%nat eqn:Hy; simpl.
    + destruct (Nat.eqb_spec r y); [contradiction|].
      destruct (remove_first Nat.eqb r (recent b l)) as [f'|] eqn:Hf;
        [|discriminate].
      intros [= <-]. destruct (IH f' eq_refl) as (k'' & -> & <-).
      exists (y :: k''). simpl. now rewrite Hy.
    + intros Hf. destruct (IH f Hf) as (k'' & -> & <-).
      exists (y :: k''). simpl. now rewrite Hy.
Qed.

Lemma agree_playPrevious (b : nat) (s1 s2 : Player) :
  agree b s1 s2 -> agree b (playPrevious s1) (playPrevious s2).
Proof.
  intros Ha. unfold playPrevious.
  rewrite <- (agree_playlist _ _ _ Ha), <- (agree_currentIndex _ _ _ Ha),
    <- (agree_repeatMode _ _ _ Ha).
  destruct (playlist s1); [exact Ha|].
  destruct (_ <? _); [|now apply agree_loadAndResume].
  destruct (repeatMode s1); first [exact Ha | now apply agree_loadAndResume].
Qed.

Lemma agree_togglePlay (b : nat) (s1 s2 : Player) :
  agree b s1 s2 -> agree b (togglePlay s1) (togglePlay s2).
Proof.
  intros Ha. unfold togglePlay. rewrite <- (agree_isPlaying _ _ _ Ha).
  destruct (isPlaying s1); [unfold pause; agree_fields Ha | now apply agree_play].
Qed.

Lemma agree_loadPlaylist_both (b : nat) (s1 s2 : Player) :
  agree b s1 s2 -> agree b (loadPlaylist s1) (loadPlaylist s2).
Proof.
  intros Ha. unfold loadPlaylist. rewrite <- (agree_linksInput _ _ _ Ha).
  destruct (JS.trim (linksInput s1)); [exact Ha|].
  apply agree_extractLoop. agree_fields Ha. constructor.
Qed.

Lemma findIndex_ext_in {A} (p q : A -> bool) (l : list A) :
  Forall (fun x => p x = q x) l -> findIndex p l = findIndex q l.
Proof.
  induction 1 as [|x l Hx _ IH]; simpl; [reflexivity|].
  now rewrite Hx, IH.
Qed.

Lemma fresh_reordered (b : nat) (l : list loc) (i j : nat) (x : loc) :
  fresh b l -> l !! i = Some x ->
  fresh b (take j (delete i l) ++ x :: drop j (delete i l)).
Proof.
  unfold fresh. intros Hl Hx. apply Forall_app. split.
  - now apply Forall_take, Forall_delete.
  - constructor.
    + rewrite Forall_lookup in Hl. exact (Hl _ _ Hx).
    + now apply Forall_drop, Forall_delete.
Qed.

Lemma agree_syncInputToPlaylist (b : nat) (s1 s2 : Player) :
  agree b s1 s2 ->
  agree b (syncInputToPlaylist s1) (syncInputToPlaylist s2).
Proof.
  intros Ha. unfold syncInputToPlaylist.
  rewrite (agree_tracks b s1 s2 Ha). agree_fields Ha.
Qed.

Lemma agree_reorderPlaylist (b : nat) (fromIndex toIndex : Z)
    (s1 s1' s2 : Player) :
  agree b s1 s2 ->
  reorderPlaylist fromIndex toIndex s1 = Some s1' ->
  exists s2',
    reorderPlaylist fromIndex toIndex s2 = Some s2' /\ agree b s1' s2'.
Proof.
  intros Ha. unfold reorderPlaylist.
  assert (Huuid : uuid_at s1 (currentIndex s1) = uuid_at s2 (currentIndex s2)).
  { unfold uuid_at. now rewrite (agree_track_at b s1 s2 _ Ha),
      (agree_currentIndex _ _ _ Ha). }
  rewrite <- Huuid, <- (agree_playlist _ _ _ Ha).
  destruct (_ || _); [intros [= <-]; now exists s2|].
  destruct (playlist s1 !! Z.to_nat fromIndex) as [movedTrack|] eqn:Hmoved;
    [|discriminate].
  intros [= <-]. eexists. split; [reflexivity|].
  set (current := (take (Z.to_nat toIndex)
                     (delete (Z.to_nat fromIndex) (playlist s1)) ++
                   movedTrack :: drop (Z.to_nat toIndex)
                     (delete (Z.to_nat fromIndex) (playlist s1)))%list).
  assert (Hfresh : fresh b current)
    by (apply fresh_reordered; [apply (agree_fresh _ _ _ Ha) | exact Hmoved]).
  assert (Ha1 : agree b (with_originalPlaylist current (with_playlist current s1))
                  (with_originalPlaylist current (with_playlist current s2)))
    by (agree_fields Ha).
  assert (Hfind : forall u,
            findIndex (has_uuid (with_originalPlaylist current
                                   (with_playlist current s1)) u) current
            = findIndex (has_uuid (with_originalPlaylist current
                                     (with_playlist current s2)) u) current).
  { intros u. apply findIndex_ext_in.
    eapply Forall_impl; [exact Hfresh|]. intros r Hr. simpl in Hr.
    unfold has_uuid, deref. cbn.
    now rewrite (agree_heap _ _ _ Ha r Hr). }
  assert (Ha2 : forall st1 st2, agree b st1 st2 ->
            agree b (with_toast (Some ToastReordered) (syncInputToPlaylist st1))
              (with_toast (Some ToastReordered) (syncInputToPlaylist st2))).
  { intros st1 st2 Hst. apply agree_syncInputToPlaylist in Hst.
    agree_fields Hst. }
  apply Ha2.
  destruct (uuid_at s1 (currentIndex s1)) as [[|c u]|]; try exact Ha1.
  rewrite <- Hfind.
  destruct (findIndex _ current); [agree_fields Ha1 | exact Ha1].
Qed.

Section Supersession.
Context `{Host}.

(** The completion of a lookup on an older track object is invisible. *)
Lemma agree_applyMetadata_old (b : nat) (r : loc) (meta : option Metadata)
    (s1 s2 : Player) :
  (r < b)%nat -> agree b s1 s2 -> agree b (applyMetadata r meta s1) s2.
Proof.
  intros Hold Ha. unfold applyMetadata.
  destruct (deref s1 r) as [track|]; [|exact Ha].
  destruct meta as [[[[|c0 t0]|] a0 th0 e0]|];
    destruct Ha; constructor; cbn -[recent] in *;
    rewrite ?length_insert; try congruence; try assumption;
    intros r' Hr'; rewrite list_lookup_insert_ne by lia; now apply agree_heap0.
Qed.

Lemma agree_applyMetadata_new (b : nat) (r : loc) (meta : option Metadata)
    (s1 s2 : Player) :
  (b <= r)%nat -> agree b s1 s2 ->
  agree b (applyMetadata r meta s1) (applyMetadata r meta s2).
Proof.
  intros Hnew Ha. unfold applyMetadata, deref.
  rewrite <- (agree_heap _ _ _ Ha r Hnew).
  destruct (heap s1 !! r) as [track|] eqn:Hr; [|exact Ha].
  apply lookup_lt_Some in Hr.
  assert (Hr2 : (r < length (heap s2))%nat)
    by (rewrite <- (agree_length _ _ _ Ha); exact Hr).
  destruct meta as [[[[|c0 t0]|] a0 th0 e0]|];
    destruct Ha; constructor; cbn -[recent] in *;
    rewrite ?length_insert; try congruence; try assumption;
    intros r' Hr';
    (destruct (Nat.eq_dec r r') as [<- | Hne];
     [rewrite !list_lookup_insert_eq by assumption; reflexivity
     |rewrite !list_lookup_insert_ne by assumption; now apply agree_heap0]).
Qed.

Lemma agree_metadata_old (b : nat) (r : loc) (server : nat -> Response)
    (s1 s1' s2 : Player) :
  (r < b)%nat -> agree b s1 s2 ->
  metadataArrived r server s1 = Some s1' -> agree b s1' s2.
Proof.
  intros Hold Ha. unfold metadataArrived.
  destruct (remove_first Nat.eqb r (lookups s1)) as [others|] eqn:Hrm;
    [|discriminate].
  intros [= <-]. apply agree_applyMetadata_old; [exact Hold|].
  pose proof (remove_first_old b r _ _ Hold Hrm) as Hrecent.
  destruct Ha. constructor; cbn -[recent] in *; try congruence; assumption.
Qed.

Lemma agree_metadata_new (b : nat) (r : loc) (server : nat -> Response)
    (s1 s1' s2 : Player) :
  (b <= r)%nat -> agree b s1 s2 ->
  metadataArrived r server s1 = Some s1' ->
  exists s2', metadataArrived r server s2 = Some s2' /\ agree b s1' s2'.
Proof.
  intros Hnew Ha. unfold metadataArrived.
  destruct (remove_first Nat.eqb r (lookups s1)) as [others|] eqn:Hrm;
    [|discriminate].
  intros [= <-].
  apply (remove_first_recent b) in Hrm; [|exact Hnew].
  rewrite (agree_lookups _ _ _ Ha) in Hrm.
  apply remove_first_recent_inv in Hrm as (others2 & -> & Hrecent);
    [|exact Hnew].
  eexists. split; [reflexivity|].
  apply agree_applyMetadata_new; [exact Hnew|].
  destruct Ha. constructor; cbn -[recent] in *; try congruence; assumption.
Qed.

Lemma agree_shortLinkResolved (b : nat) (shortId : string)
    (rest : list string) (answer : option string) (s1 s1' s2 : Player) :
  agree b s1 s2 ->
  shortLinkResolved shortId rest answer s1 = Some s1' ->
  exists s2',
    shortLinkResolved shortId rest answer s2 = Some s2' /\ agree b s1' s2'.
Proof.
  intros Ha. unfold shortLinkResolved.
  rewrite <- (agree_extractions _ _ _ Ha).
  destruct (remove_first _ _ _) as [others|]; [|discriminate].
  intros [= <-]. eexists. split; [reflexivity|].
  apply agree_extractLoop.
  assert (Ha' : agree b (with_extractions others s1) (with_extractions others s2))
    by (agree_fields Ha).
  destruct (resolveShortLink answer); [now apply agree_pushTrack | exact Ha'].
Qed.

(** An event that is not erased is matched in the run without the
    superseded completions. *)
Lemma agree_step (b : nat) (e : Event) (s1 s1' s2 : Player) :
  no_shuffle_toggle e -> superseded b e = false ->
  agree b s1 s2 -> step e s1 = Some s1' ->
  exists s2', step e s2 = Some s2' /\ agree b s1' s2'.
Proof.
  intros Hun Hkeep Ha.
  destruct e; try contradiction; simpl in *;
    try (intros [= <-]; eexists; split; [reflexivity|]).
  - agree_fields Ha.
  - now apply agree_loadPlaylist_both.
  - now apply agree_play, agree_loadTrack.
  - now apply agree_togglePlay.
  - now apply agree_playNext.
  - now apply agree_playPrevious.
  - unfold toggleRepeat. rewrite <- (agree_repeatMode _ _ _ Ha).
    agree_fields Ha.
  - destruct confirmed; [|exact Ha]. unfold clearPlaylist.
    agree_fields Ha. constructor.
  - now apply agree_reorderPlaylist.
  - now apply agree_shortLinkResolved.
  - apply agree_metadata_new; [|exact Ha].
    apply Nat.ltb_ge in Hkeep. exact Hkeep.
  - unfold playFulfilled. rewrite <- (agree_playRequests _ _ _ Ha).
    destruct (playRequests s1); [discriminate|].
    intros [= <-]. eexists. split; [reflexivity|]. agree_fields Ha.
  - unfold playRejected. rewrite <- (agree_playRequests _ _ _ Ha).
    destruct (playRequests s1); [discriminate|].
    intros [= <-]. eexists. split; [reflexivity|]. agree_fields Ha.
  - now apply agree_audioEnded.
  - now apply agree_playNext.
Qed.

(** An erased event changes nothing that the other run can see. *)
Lemma agree_erased (b : nat) (e : Event) (s1 s1' s2 : Player) :
  superseded b e = true ->
  agree b s1 s2 -> step e s1 = Some s1' -> agree b s1' s2.
Proof.
  intros Hold Ha. destruct e; try discriminate Hold. simpl in *.
  apply agree_metadata_old; [|exact Ha].
  apply Nat.ltb_lt in Hold. exact Hold.
Qed.

Lemma agree_run (b : nat) (events : list Event) (s1 s1' s2 : Player) :
  Forall no_shuffle_toggle events ->
  agree b s1 s2 -> run events s1 = Some s1' ->
  exists s2', run (erase_superseded b events) s2 = Some s2' /\ agree b s1' s2'.
Proof.
  intros Hun. revert s1 s2.
  induction Hun as [|e events He _ IH]; intros s1 s2 Ha; simpl.
  - intros [= <-]. now exists s2.
  - destruct (step e s1) as [s1m|] eqn:Hstep; [|discriminate].
    intros Hrun. destruct (superseded b e) eqn:Hsup; simpl.
    + apply (IH s1m s2); [|exact Hrun]. now apply (agree_erased b e s1).
    + destruct (agree_step b e s1 s1m s2 He Hsup Ha Hstep) as (s2m & -> & Ham).
      now apply (IH s1m s2m).
Qed.

(** A load that finds text in the input starts from a playlist made of
    new track objects only. *)
Lemma agree_loadPlaylist (st : Player) :
  JS.trim (linksInput st) <> "" ->
  agree (length (heap st)) (loadPlaylist st) (loadPlaylist st).
Proof.
  intros Htext. unfold loadPlaylist.
  destruct (JS.trim (linksInput st)) as [|c text]; [congruence|].
  apply agree_extractLoop. constructor; cbn -[recent]; try reflexivity.
  constructor.
Qed.

(** C2.  A second load replaces the playlist while lookups of the first
    one are pending.  Whatever happens next, short of a shuffle toggle
    (network answers, audio notifications, transport and reordering by the
    user, further loads), the run in which the first load's lookups
    complete and the run in which they never do end with the same
    playlist, holding tracks with the same contents, the same cursor and
    the same playing flag; the final playlist only holds track objects
    created since the second load began. *)
Theorem superseded_lookups_invisible (st final : Player)
    (events : list Event) :
  JS.trim (linksInput st) <> "" ->
  idle st ->
  Forall no_shuffle_toggle events ->
  run (ClickLoad :: events) st = Some final ->
  exists final',
    run (ClickLoad :: erase_superseded (length (heap st)) events) st
    = Some final' /\
    playlist final = playlist final' /\
    tracks final = tracks final' /\
    currentIndex final = currentIndex final' /\
    isPlaying final = isPlaying final' /\
    fresh (length (heap st)) (playlist final).
Proof.
  intros Htext _ Hun Hrun. simpl in *.
  destruct (agree_run (length (heap st)) events _ final (loadPlaylist st) Hun
              (agree_loadPlaylist st Htext) Hrun) as (final' & Hrun' & Ha).
  exists final'. split; [exact Hrun'|].
  split; [apply (agree_playlist _ _ _ Ha)|].
  split; [apply (agree_tracks _ _ _ Ha)|].
  split; [apply (agree_currentIndex _ _ _ Ha)|].
  split; [apply (agree_isPlaying _ _ _ Ha) | apply (agree_fresh _ _ _ Ha)].
Qed.

End Supersession.

Lemma superseded_lookups_invisible_witness :
  let st := with_linksInput (link id3) (loaded [link id1; link id2]) in
  let events := [MetadataArrived 0 answering; MetadataArrived 2 answering;
                 TogglePlay; MetadataArrived 1 failing] in
  JS.trim (linksInput st) <> "" /\
  idle st /\
  Forall no_shuffle_toggle events /\
  exists final final',
    @run host (ClickLoad :: events) st = Some final /\
    @run host (ClickLoad :: erase_superseded (length (heap st)) events) st
    = Some final' /\
    tracks final = tracks final'.
Proof.
  cbv zeta.
  set (st := with_linksInput (link id3) (loaded [link id1; link id2])).
  set (events := [MetadataArrived 0 answering; MetadataArrived 2 answering;
                  TogglePlay; MetadataArrived 1 failing]).
  assert (Htext : JS.trim (linksInput st) <> "") by (vm_compute; discriminate).
  assert (Hidle : idle st) by reflexivity.
  assert (Hun : Forall no_shuffle_toggle events) by (repeat constructor).
  assert (Hrun : exists final, @run host (ClickLoad :: events) st = Some final)
    by (eexists; vm_compute; reflexivity).
  destruct Hrun as [final Hrun].
  repeat (split; [assumption|]).
  destruct (@superseded_lookups_invisible host st final events
              Htext Hidle Hun Hrun) as (final' & Hrun' & _ & Htracks & _).
  exists final, final'. repeat split; assumption.
Defined.

End PlayerFacts.

(** ** The examples of the specification *)

Module Examples.
Import Player Reference.

(** Two song links load as two pending tracks with the cursor on the
    first. *)
Example two_links_load :
  let st := loaded [link id1; link id2] in
  map (option_map uuid) (tracks st) = [Some id1; Some id2] /\
  map (option_map artist) (tracks st) = [Some "Loading..."; Some "Loading..."] /\
  currentIndex st = 0 /\
  lookups st = [0; 1]%nat.
Proof. vm_compute. repeat split. Qed.

Example extract_from_song_link :
  Extractor.extractUUID (link id1) = Some id1.
Proof. vm_compute. reflexivity. Qed.

Example extract_bare_identifier :
  Extractor.extractUUID "see 0AbCdEf0-1234-5678-9abc-def012345678!"
  = Some "0AbCdEf0-1234-5678-9abc-def012345678".
Proof. vm_compute. reflexivity. Qed.

Example extract_nothing : Extractor.extractUUID "https://suno.com/s/AbC123" = None.
Proof. vm_compute. reflexivity. Qed.

Example short_link_id : Extractor.shortMatch "https://suno.com/s/AbC123?x=1" = Some "AbC123".
Proof. vm_compute. reflexivity. Qed.

Example decode_repeated :
  @Codec.decodeCompressed tagged (@Codec.encode tagged ["a"; "b"; "a"])
  = Some ["a"; "b"; "a"].
Proof. reflexivity. Qed.

Example trim_lines :
  linesOf (JS.trim (JS.join (String "010" "") ["  a "; ""; " b"; " "]))
  = ["a"; "b"].
Proof. vm_compute. reflexivity. Qed.

(** The reference sort on three tracks and three random bits: two of the
    six orders come out twice. *)
Example insertion_sort_outcomes :
  @shuffle_outcomes host 3 (loaded [link id1; link id2; link id3])
  = [[2; 1; 0]; [2; 1; 0]; [1; 2; 0]; [1; 0; 2];
     [2; 0; 1]; [2; 0; 1]; [0; 2; 1]; [0; 1; 2]]%nat.
Proof. vm_compute. reflexivity. Qed.

End Examples.
